(** * Bootstrap loader of [@matrix-org/matrix-sdk-crypto-wasm]

    A shallow embedding of the four entry points of the package
    ([index.js], its ESM twin, [node.js] and its twin) that fetch or read,
    compile and instantiate the WebAssembly module and rebind the [wasm]
    variable of the generated bindings.

    JavaScript runs the loader on one thread: an [async] function runs
    until its next [await], and other code runs only while it is suspended
    there.  The embedding is a state machine whose atomic steps are exactly
    these run-to-next-await segments; the host (network, file system,
    WebAssembly engine) is a record of answers indexed by request number. *)

From Stdlib Require Import String Ascii List Arith Lia Bool.
From stdpp Require Import base tactics option list.
Import ListNotations.

Local Open Scope string_scope.
Local Open Scope list_scope.

(** ** JavaScript values *)

(** An [Error] object, as far as the loader and its callers look at it. *)
Record JsError := mkError { err_name : string; err_message : string }.

(** Completion of a call, or settlement of the promise it returned. *)
Inductive completion (A : Type) : Type :=
| Normal (a : A)
| Throw (e : JsError).
Arguments Normal {A} a.
Arguments Throw {A} e.

(** [String.prototype.includes]. *)
Fixpoint includes (needle s : string) : bool :=
  String.prefix needle s
  || match s with
     | EmptyString => false
     | String _ s' => includes needle s'
     end.

(** Contents of an [ArrayBuffer] or a Node [Buffer]. *)
Definition bytes := list Byte.byte.

(** A fetch [Response]: its [ok] flag and what [arrayBuffer()] settles to. *)
Record Response := mkResponse { ok : bool; arrayBuffer : completion bytes }.

(** A [WebAssembly.Module] is identified by the number of the compile
    request that produced it; an instance by the number of the
    [new WebAssembly.Instance] call. *)
Definition wasm_module := nat.

(** ** The host *)

Record Host := mkHost {
  (** [require.resolve(...)] in [index.js], [new URL(..., import.meta.url)]
      in the ESM entry point *)
  moduleUrl : string;
  (** [typeof WebAssembly.compileStreaming === "function"] *)
  has_compileStreaming : bool;
  (** settlement of the [n]-th [fetch(moduleUrl)] *)
  fetch : nat -> completion Response;
  (** settlement of [WebAssembly.compileStreaming(source)], compile request [k] *)
  compileStreaming : nat -> completion Response -> completion unit;
  (** settlement of [WebAssembly.compile(bytes)], compile request [k] *)
  compile : nat -> bytes -> completion unit;
  (** settlement of the [n]-th [readFile(filename)] *)
  readFile : nat -> completion bytes;
  (** completion of the [n]-th [readFileSync(filename)] *)
  readFileSync : nat -> completion bytes;
  (** completion of [new WebAssembly.Module(bytes)], compile request [k] *)
  newModule : nat -> bytes -> completion unit;
  (** completion of the [i]-th [new WebAssembly.Instance(mod, imports)] *)
  newInstance : nat -> wasm_module -> completion unit;
  (** what [new WebAssembly.Instance(undefined, imports)] throws *)
  not_a_module : JsError;
  (** completion of [__wbindgen_start()] of instance [i] *)
  wbindgen_start : nat -> completion unit;
}.

(** ** The four entry points *)

Inductive variant :=
| IndexCjs   (** [index.js]: fetch, CommonJS *)
| IndexEsm   (** fetch, ES module *)
| NodeCjs    (** [node.js]: file system, CommonJS *)
| NodeCjs2.  (** file system, the twin that calls [initInstance(mod)] *)

Definition is_node (v : variant) : bool :=
  match v with
  | NodeCjs | NodeCjs2 => true
  | IndexCjs | IndexEsm => false
  end.

(** The ESM [initAsync] instantiates [const mod = await loadModule()];
    the others read the module-level [mod] after the [await]. *)
Definition uses_loaded (v : variant) : bool :=
  match v with
  | IndexEsm => true
  | _ => false
  end.

(** ** Loader state *)

(** The [wasm] variable of the bindings, written by [__wbg_set_wasm]. *)
Inductive wasm_binding :=
| GuardProxy
| InstanceExports (i : nat).

(** What a property read on [wasm] evaluates to. *)
Inductive export_value :=
| ExportMember (i : nat) (prop : string).

(** Host operations performed, for counting and ordering them. *)
Inductive event :=
| EvFetch
| EvCompileStreaming
| EvArrayBuffer
| EvCompile
| EvReadFile
| EvReadFileSync
| EvNewModule
| EvNewInstance (i : nat) (m : option wasm_module) (linked : bool)
| EvSetWasm (i : nat)
| EvStart (i : nat).

(** Where a call of [initAsync] is suspended. *)
Inductive pc :=
| AwaitCompileStreaming (k n : nat)
| AwaitFetch (n : nat)
| AwaitArrayBuffer (r : Response)
| AwaitCompile (k : nat) (b : bytes)
| AwaitReadFile (n : nat)
| AwaitLoadModule (r : completion (option wasm_module))
| Done (r : completion unit).

(** The module-level variables of the entry point and of the bindings. *)
Record state := mkState {
  mod_ : option wasm_module;   (** [let mod;] *)
  wasm : wasm_binding;         (** [let wasm;] of the bindings *)
  log : list event;            (** host operations so far, newest first *)
}.

(** State right after the entry point was evaluated: [mod] is undefined and
    [__wbg_set_wasm(new Proxy(...))] has run. *)
Definition init : state :=
  {| mod_ := None; wasm := GuardProxy; log := [] |}.

Definition emit (e : event) (s : state) : state :=
  {| mod_ := mod_ s; wasm := wasm s; log := e :: log s |}.

Definition set_mod (m : wasm_module) (s : state) : state :=
  {| mod_ := Some m; wasm := wasm s; log := log s |}.

Definition wbg_set_wasm (w : wasm_binding) (s : state) : state :=
  {| mod_ := mod_ s; wasm := w; log := log s |}.

(** The variables together with the calls of [initAsync] made so far. *)
Record process := mkProcess {
  vars : state;
  tasks : list pc;
}.

Definition boot : process := {| vars := init; tasks := [] |}.

(** *** Classes of events *)

Definition is_fetch (e : event) : bool :=
  match e with EvFetch => true | _ => false end.

Definition is_read_file (e : event) : bool :=
  match e with EvReadFile => true | _ => false end.

Definition is_read_file_sync (e : event) : bool :=
  match e with EvReadFileSync => true | _ => false end.

(** a fetch or a read of the binary *)
Definition is_load (e : event) : bool :=
  match e with EvFetch | EvReadFile | EvReadFileSync => true | _ => false end.

(** a compile request of any kind *)
Definition is_compile (e : event) : bool :=
  match e with EvCompileStreaming | EvCompile | EvNewModule => true | _ => false end.

(** a step of the fetch-then-compile path *)
Definition is_buffered (e : event) : bool :=
  match e with EvArrayBuffer | EvCompile => true | _ => false end.

Definition is_streaming (e : event) : bool :=
  match e with EvCompileStreaming => true | _ => false end.

Definition is_new_instance (e : event) : bool :=
  match e with EvNewInstance _ _ _ => true | _ => false end.

Definition is_linked (e : event) : bool :=
  match e with EvNewInstance _ _ linked => linked | _ => false end.

Definition is_set_wasm (e : event) : bool :=
  match e with EvSetWasm _ => true | _ => false end.

Definition is_start (e : event) : bool :=
  match e with EvStart _ => true | _ => false end.

Definition is_start_of (i : nat) (e : event) : bool :=
  match e with EvStart j => Nat.eqb i j | _ => false end.

Fixpoint count (f : event -> bool) (l : list event) : nat :=
  match l with
  | [] => 0
  | e :: l' => (if f e then 1 else 0) + count f l'
  end.

(** The operations in the order they happened. *)
Definition trace (s : state) : list event := rev (log s).

(** ** The loader *)

(** The error thrown by the [get] trap of the [Proxy] of the fetch entry
    points. *)
Definition premature_use : JsError :=
  mkError "Error"
    "@matrix-org/matrix-sdk-crypto-wasm was used before it was initialized. Call `initAsync` first.".

(** What the embedding application can do. *)
Inductive action :=
| CallInitAsync            (** call [initAsync()]; it runs to its first [await] *)
| Resume (t : nat)         (** the promise awaited by call [t] settles *)
| Get (prop : string).     (** a binding reads [wasm.prop] *)

(** The same, one at a time: [await initAsync()] or a property read. *)
Inductive seq_op :=
| OpInitAsync
| OpGet (prop : string).

Section Loader.

Variable H : Host.
Variable v : variant.

(** [new Error(`Failed to fetch wasm module: ${moduleUrl}`)] *)
Definition fetch_failed : JsError :=
  mkError "Error" (String.append "Failed to fetch wasm module: " (moduleUrl H)).

(** The three statements that end [initAsync] in the fetch entry points and
    make the body of [initInstance] in the Node ones:
    [new WebAssembly.Instance(mod, imports)], then
    [bindings.__wbg_set_wasm(instance.exports)], then
    [instance.exports.__wbindgen_start()].  Returns the instance. *)
Definition initInstance (m : option wasm_module) (s : state)
  : state * completion nat :=
  let i := count is_new_instance (log s) in
  match match m with
        | Some m' => newInstance H i m'
        | None => Throw (not_a_module H)
        end with
  | Throw e => (emit (EvNewInstance i m false) s, Throw e)
  | Normal _ =>
      let s1 := emit (EvNewInstance i m true) s in
      let s2 := emit (EvSetWasm i) (wbg_set_wasm (InstanceExports i) s1) in
      let s3 := emit (EvStart i) s2 in
      match wbindgen_start H i with
      | Throw e => (s3, Throw e)
      | Normal _ => (s3, Normal i)
      end
  end.

(** [loadModuleSync] of the Node entry points. *)
Definition loadModuleSync (s : state) : state * completion (option wasm_module) :=
  match mod_ s with
  | Some m => (s, Normal (Some m))
  | None =>
      let n := count is_read_file_sync (log s) in
      let s1 := emit EvReadFileSync s in
      match readFileSync H n with
      | Throw e => (s1, Throw e)
      | Normal b =>
          let k := count is_compile (log s1) in
          let s2 := emit EvNewModule s1 in
          match newModule H k b with
          | Throw e => (s2, Throw e)
          | Normal _ => (set_mod k s2, Normal None)
          end
      end
  end.

(** [loadModule] up to its first [await]. *)
Definition loadModule_call (s : state) : state * pc :=
  match mod_ s with
  | Some m => (s, AwaitLoadModule (Normal (Some m)))
  | None =>
      if is_node v then
        (emit EvReadFile s, AwaitReadFile (count is_read_file (log s)))
      else if has_compileStreaming H then
        let n := count is_fetch (log s) in
        let s1 := emit EvFetch s in
        (emit EvCompileStreaming s1, AwaitCompileStreaming (count is_compile (log s1)) n)
      else
        (emit EvFetch s, AwaitFetch (count is_fetch (log s)))
  end.

(** What [loadModule] returns after it assigned [mod]: the ESM entry point
    has [return mod;], [index.js] has a bare [return;] or runs off its end,
    and so does [node.js]. *)
Definition loadModule_ret (m : wasm_module) : option wasm_module :=
  if uses_loaded v then Some m else None.

(** [mod = <the awaited module>] and the end of [loadModule]. *)
Definition loadModule_finish (m : wasm_module) (s : state) : state * pc :=
  (set_mod m s, AwaitLoadModule (Normal (loadModule_ret m))).

(** A call of [initAsync] resumed at [p], run to its next [await]. *)
Definition resume (s : state) (p : pc) : state * pc :=
  match p with
  | AwaitCompileStreaming k n =>
      match compileStreaming H k (fetch H n) with
      | Normal _ => loadModule_finish k s
      | Throw e => (s, AwaitLoadModule (Throw e))
      end
  | AwaitFetch n =>
      match fetch H n with
      | Throw e => (s, AwaitLoadModule (Throw e))
      | Normal response =>
          if ok response then (emit EvArrayBuffer s, AwaitArrayBuffer response)
          else (s, AwaitLoadModule (Throw fetch_failed))
      end
  | AwaitArrayBuffer response =>
      match arrayBuffer response with
      | Throw e => (s, AwaitLoadModule (Throw e))
      | Normal b => (emit EvCompile s, AwaitCompile (count is_compile (log s)) b)
      end
  | AwaitReadFile n =>
      match readFile H n with
      | Throw e => (s, AwaitLoadModule (Throw e))
      | Normal b => (emit EvCompile s, AwaitCompile (count is_compile (log s)) b)
      end
  | AwaitCompile k b =>
      match compile H k b with
      | Normal _ => loadModule_finish k s
      | Throw e => (s, AwaitLoadModule (Throw e))
      end
  | AwaitLoadModule (Throw e) => (s, Done (Throw e))
  | AwaitLoadModule (Normal loaded) =>
      let m := if uses_loaded v then loaded else mod_ s in
      match initInstance m s with
      | (s', Normal _) => (s', Done (Normal tt))
      | (s', Throw e) => (s', Done (Throw e))
      end
  | Done r => (s, Done r)
  end.

(** A property read on the [wasm] variable of the bindings: the [get] trap
    of the [Proxy] while it is installed, the instance's export after. *)
Definition get (s : state) (prop : string) : state * completion export_value :=
  match wasm s with
  | InstanceExports i => (s, Normal (ExportMember i prop))
  | GuardProxy =>
      if is_node v then
        match loadModuleSync s with
        | (s1, Throw e) => (s1, Throw e)
        | (s1, Normal _) =>
            match initInstance (mod_ s1) s1 with
            | (s2, Throw e) => (s2, Throw e)
            | (s2, Normal i) => (s2, Normal (ExportMember i prop))
            end
        end
      else (s, Throw premature_use)
  end.

(** *** Interleaved use *)

Definition step (P : process) (a : action) : process :=
  match a with
  | CallInitAsync =>
      let (s1, p) := loadModule_call (vars P) in
      {| vars := s1; tasks := tasks P ++ [p] |}
  | Resume t =>
      match tasks P !! t with
      | Some p =>
          let (s1, p') := resume (vars P) p in
          {| vars := s1; tasks := <[t := p']> (tasks P) |}
      | None => P
      end
  | Get prop => {| vars := fst (get (vars P) prop); tasks := tasks P |}
  end.

Definition run (P : process) (sched : list action) : process :=
  fold_left step sched P.

(** Outcome of call [t], once it has one. *)
Definition outcome (P : process) (t : nat) : option (completion unit) :=
  match tasks P !! t with
  | Some (Done r) => Some r
  | _ => None
  end.

(** *** Sequential use *)

(** [n] settlements in a row for one call. *)
Fixpoint settle (n : nat) (s : state) (p : pc) : state * pc :=
  match n with
  | 0 => (s, p)
  | S n' => let (s', p') := resume s p in settle n' s' p'
  end.

(** [await initAsync()]: the call and the settlements it waits for, with
    nothing else in between.  Four settlements reach [Done] from every
    suspension point. *)
Definition initAsync (s : state) : state * pc :=
  let (s1, p) := loadModule_call s in settle 4 s1 p.

Definition seq_step (s : state) (o : seq_op) : state :=
  match o with
  | OpInitAsync => fst (initAsync s)
  | OpGet prop => fst (get s prop)
  end.

Definition run_seq (s : state) (ops : list seq_op) : state :=
  fold_left seq_step ops s.

(** Property reads in a row, with what each evaluates to. *)
Fixpoint gets (s : state) (props : list string)
  : state * list (completion export_value) :=
  match props with
  | [] => (s, [])
  | prop :: props' =>
      let (s1, r) := get s prop in
      let (s2, rs) := gets s1 props' in
      (s2, r :: rs)
  end.

End Loader.

(** ** Concrete hosts *)

(** The four bytes every binary module starts with. *)
Definition wasm_magic : bytes := [Byte.x00; Byte.x61; Byte.x73; Byte.x6d].

Definition example_url : string :=
  "https://example.org/pkg/matrix_sdk_crypto_wasm_bg.wasm".

Definition link_error : JsError :=
  mkError "LinkError" "WebAssembly.Instance(): Import #0: module is not an object or function".

Definition type_error (msg : string) : JsError := mkError "TypeError" msg.

(** A host on which every request succeeds. *)
Definition good_host (streaming : bool) : Host :=
  {| moduleUrl := example_url;
     has_compileStreaming := streaming;
     fetch := fun _ => Normal (mkResponse true (Normal wasm_magic));
     compileStreaming := fun _ _ => Normal tt;
     compile := fun _ _ => Normal tt;
     readFile := fun _ => Normal wasm_magic;
     readFileSync := fun _ => Normal wasm_magic;
     newModule := fun _ _ => Normal tt;
     newInstance := fun _ _ => Normal tt;
     not_a_module := type_error "WebAssembly.Instance(): Argument 0 must be a WebAssembly.Module";
     wbindgen_start := fun _ => Normal tt |}.

(** The network is down: every [fetch] rejects, every read fails. *)
Definition offline_host (streaming : bool) : Host :=
  {| moduleUrl := example_url;
     has_compileStreaming := streaming;
     fetch := fun _ => Throw (type_error "Failed to fetch");
     compileStreaming := fun _ src =>
       match src with
       | Throw e => Throw e
       | Normal _ => Normal tt
       end;
     compile := fun _ _ => Normal tt;
     readFile := fun _ => Throw (mkError "Error" "ENOENT: no such file or directory");
     readFileSync := fun _ => Throw (mkError "Error" "ENOENT: no such file or directory");
     newModule := fun _ _ => Normal tt;
     newInstance := fun _ _ => Normal tt;
     not_a_module := type_error "WebAssembly.Instance(): Argument 0 must be a WebAssembly.Module";
     wbindgen_start := fun _ => Normal tt |}.

(** The bindings do not match the binary: every instantiation fails to link. *)
Definition unlinkable_host (streaming : bool) : Host :=
  {| moduleUrl := example_url;
     has_compileStreaming := streaming;
     fetch := fun _ => Normal (mkResponse true (Normal wasm_magic));
     compileStreaming := fun _ _ => Normal tt;
     compile := fun _ _ => Normal tt;
     readFile := fun _ => Normal wasm_magic;
     readFileSync := fun _ => Normal wasm_magic;
     newModule := fun _ _ => Normal tt;
     newInstance := fun _ _ => Throw link_error;
     not_a_module := type_error "WebAssembly.Instance(): Argument 0 must be a WebAssembly.Module";
     wbindgen_start := fun _ => Normal tt |}.

(** The server answers 404: the response is not [ok], and a streaming
    compile of it is refused by the engine with its own error. *)
Definition not_found_host (streaming : bool) : Host :=
  {| moduleUrl := example_url;
     has_compileStreaming := streaming;
     fetch := fun _ => Normal (mkResponse false (Normal []));
     compileStreaming := fun _ src =>
       match src with
       | Throw e => Throw e
       | Normal r =>
           if ok r then Normal tt
           else Throw (type_error
                  "Failed to execute 'compile' on 'WebAssembly': HTTP status code is not ok")
       end;
     compile := fun _ _ => Normal tt;
     readFile := fun _ => Normal wasm_magic;
     readFileSync := fun _ => Normal wasm_magic;
     newModule := fun _ _ => Normal tt;
     newInstance := fun _ _ => Normal tt;
     not_a_module := type_error "WebAssembly.Instance(): Argument 0 must be a WebAssembly.Module";
     wbindgen_start := fun _ => Normal tt |}.

(** The server sends the binary with a content type the streaming compiler
    refuses; the bytes themselves are fine. *)
Definition wrong_mime_host (streaming : bool) : Host :=
  {| moduleUrl := example_url;
     has_compileStreaming := streaming;
     fetch := fun _ => Normal (mkResponse true (Normal wasm_magic));
     compileStreaming := fun _ _ =>
       Throw (type_error
         "Failed to execute 'compile' on 'WebAssembly': Incorrect response MIME type. Expected 'application/wasm'.");
     compile := fun _ _ => Normal tt;
     readFile := fun _ => Normal wasm_magic;
     readFileSync := fun _ => Normal wasm_magic;
     newModule := fun _ _ => Normal tt;
     newInstance := fun _ _ => Normal tt;
     not_a_module := type_error "WebAssembly.Instance(): Argument 0 must be a WebAssembly.Module";
     wbindgen_start := fun _ => Normal tt |}.

(** The binary links, but its start-up export traps. *)
Definition failing_start_host (streaming : bool) : Host :=
  {| moduleUrl := example_url;
     has_compileStreaming := streaming;
     fetch := fun _ => Normal (mkResponse true (Normal wasm_magic));
     compileStreaming := fun _ _ => Normal tt;
     compile := fun _ _ => Normal tt;
     readFile := fun _ => Normal wasm_magic;
     readFileSync := fun _ => Normal wasm_magic;
     newModule := fun _ _ => Normal tt;
     newInstance := fun _ _ => Normal tt;
     not_a_module := type_error "WebAssembly.Instance(): Argument 0 must be a WebAssembly.Module";
     wbindgen_start := fun _ => Throw (mkError "RuntimeError" "unreachable") |}.

(** ** Shape of the log *)

(** The three events of an instantiation. *)
Definition is_init_event (e : event) : bool :=
  is_new_instance e || is_set_wasm e || is_start e.

(** Logs the loader can produce (newest event first): instantiations are
    numbered in order, and a linked instance is rebound and started on the
    spot. *)
Inductive wf_log : list event -> Prop :=
| wf_nil : wf_log []
| wf_other e l :
    is_init_event e = false -> wf_log l -> wf_log (e :: l)
| wf_link_failed m l :
    wf_log l -> wf_log (EvNewInstance (count is_new_instance l) m false :: l)
| wf_inited m l :
    wf_log l ->
    wf_log (EvStart (count is_new_instance l)
              :: EvSetWasm (count is_new_instance l)
              :: EvNewInstance (count is_new_instance l) m true :: l).

(** What the last [__wbg_set_wasm] of a log bound [wasm] to. *)
Fixpoint bound_by (l : list event) : wasm_binding :=
  match l with
  | [] => GuardProxy
  | EvSetWasm i :: _ => InstanceExports i
  | _ :: l' => bound_by l'
  end.

Definition log_inv (s : state) : Prop :=
  wf_log (log s) /\ wasm s = bound_by (log s).

(** Calls of [initAsync] made by a schedule, and property reads in it. *)
Definition is_call (a : action) : bool :=
  match a with CallInitAsync => true | _ => false end.

Definition is_get (a : action) : bool :=
  match a with Get _ => true | _ => false end.

Definition calls (sched : list action) : nat := length (List.filter is_call sched).
Definition reads (sched : list action) : nat := length (List.filter is_get sched).

(** Calls that have not settled. *)
Definition is_pending (p : pc) : bool :=
  match p with Done _ => false | _ => true end.

Definition pending (l : list pc) : nat := length (List.filter is_pending l).

Definition is_done (p : pc) : bool := negb (is_pending p).

Definition settled (l : list pc) : nat := length (List.filter is_done l).

(** Calls whose promise is resolved. *)
Definition is_resolved (p : pc) : bool :=
  match p with Done (Normal _) => true | _ => false end.

Definition resolved (l : list pc) : nat := length (List.filter is_resolved l).

(** Calls waiting for the bytes: a compile request is still to come. *)
Definition awaits_bytes (p : pc) : bool :=
  match p with
  | AwaitFetch _ | AwaitArrayBuffer _ | AwaitReadFile _ => true
  | _ => false
  end.

Definition awaiting_bytes (l : list pc) : nat := length (List.filter awaits_bytes l).

(** Instance numbers in a log are below the number of instantiations. *)
Definition instance_of (e : event) : option nat :=
  match e with
  | EvNewInstance i _ _ | EvSetWasm i | EvStart i => Some i
  | _ => None
  end.

(** Settlements a call still needs before it is [Done]. *)
Definition rank (p : pc) : nat :=
  match p with
  | Done _ => 0
  | AwaitLoadModule _ => 1
  | AwaitCompile _ _ | AwaitCompileStreaming _ _ => 2
  | AwaitArrayBuffer _ | AwaitReadFile _ => 3
  | AwaitFetch _ => 4
  end.

(** [loadModule] is over for this call. *)
Definition past_load (p : pc) : bool :=
  match p with
  | AwaitLoadModule _ | Done _ => true
  | _ => false
  end.

(** Hosts on which every request succeeds. *)
Record all_succeed (H : Host) : Prop := {
  fetch_succeeds : forall n, exists b, fetch H n = Normal (mkResponse true (Normal b));
  compileStreaming_succeeds : forall k n, compileStreaming H k (fetch H n) = Normal tt;
  compile_succeeds : forall k b, compile H k b = Normal tt;
  readFile_succeeds : forall n, exists b, readFile H n = Normal b;
  readFileSync_succeeds : forall n, exists b, readFileSync H n = Normal b;
  newModule_succeeds : forall k b, newModule H k b = Normal tt;
  newInstance_succeeds : forall i m, newInstance H i m = Normal tt;
  wbindgen_start_succeeds : forall i, wbindgen_start H i = Normal tt;
}.

(** Which compile path the fetch entry points have taken so far. *)
Definition path_inv (H : Host) (P : process) : Prop :=
  if has_compileStreaming H then
    Forall (fun p => awaits_bytes p = false) (tasks P)
    /\ count is_buffered (log (vars P)) = 0
    /\ count is_streaming (log (vars P)) = count is_fetch (log (vars P))
  else
    count is_streaming (log (vars P)) = 0.

(** A suspended call is on its way to a resolved promise. *)
Definition healthy (v : variant) (s : state) (p : pc) : Prop :=
  match p with
  | AwaitLoadModule (Normal loaded) =>
      (if uses_loaded v then loaded else mod_ s) <> None
  | AwaitLoadModule (Throw _) | Done (Throw _) => False
  | AwaitArrayBuffer r => exists b, arrayBuffer r = Normal b
  | _ => True
  end.

Definition b2n (b : bool) : nat := if b then 1 else 0.

(** What holds of every process reached without property reads. *)
Record good_inv (v : variant) (P : process) : Prop := {
  good_healthy : Forall (healthy v (vars P)) (tasks P);
  good_instances : count is_new_instance (log (vars P)) = settled (tasks P);
  good_linked : count is_linked (log (vars P)) = settled (tasks P);
  good_compiles :
    count is_load (log (vars P))
    = count is_compile (log (vars P)) + awaiting_bytes (tasks P);
  good_loads : count is_load (log (vars P)) <= length (tasks P);
  good_loaded :
    mod_ (vars P) <> None \/ tasks P <> [] -> 1 <= count is_load (log (vars P));
}.

(** Instantiations so far plus calls that may still instantiate. *)
Definition potential (P : process) : nat :=
  count is_new_instance (log (vars P)) + pending (tasks P).

(** ** Modules, settlements and reads in a run *)

(** [m] is a module, and one that a compile request of the log produced. *)
Definition module_known (l : list event) (m : option wasm_module) : Prop :=
  exists k, m = Some k /\ k < count is_compile l.

(** Every [new WebAssembly.Instance] of the log was given such a module. *)
Definition instantiates_known (l : list event) : Prop :=
  forall i m linked, In (EvNewInstance i m linked) l -> module_known l m.

Definition vars_known (s : state) : Prop :=
  (forall m, mod_ s = Some m -> m < count is_compile (log s))
  /\ instantiates_known (log s).

(** The module a suspended call waits for, or is about to instantiate, is
    one of the log's. *)
Definition call_known (v : variant) (s : state) (p : pc) : Prop :=
  match p with
  | AwaitLoadModule (Normal loaded) =>
      module_known (log s) (if uses_loaded v then loaded else mod_ s)
  | AwaitCompileStreaming k _ | AwaitCompile k _ => k < count is_compile (log s)
  | _ => True
  end.

Definition modules_inv (v : variant) (P : process) : Prop :=
  vars_known (vars P) /\ Forall (call_known v (vars P)) (tasks P).

(** [s'] comes after [s]: more compile requests, and [mod] either untouched
    or assigned a module of the log. *)
Definition later (s s' : state) : Prop :=
  count is_compile (log s) <= count is_compile (log s')
  /\ (exists newer, log s' = newer ++ log s)
  /\ (mod_ s' = mod_ s
      \/ exists k, mod_ s' = Some k /\ k < count is_compile (log s')).

(** Settlements of call [t] in a schedule. *)
Definition is_resume_of (t : nat) (a : action) : bool :=
  match a with Resume t' => Nat.eqb t t' | _ => false end.

Definition resumes_of (t : nat) (sched : list action) : nat :=
  length (List.filter (is_resume_of t) sched).

(** A schedule with its property reads taken out. *)
Definition without_reads (sched : list action) : list action :=
  List.filter (fun a => negb (is_get a)) sched.

(** The synchronous requests: [readFileSync] and [new WebAssembly.Module]. *)
Definition is_blocking (e : event) : bool :=
  match e with EvReadFileSync | EvNewModule => true | _ => false end.

(** * Proofs *)

(** ** Strings *)

Lemma prefix_refl (s : string) : String.prefix s s = true.
Proof.
  induction s as [|c s IH]; simpl; [reflexivity|].
  destruct (ascii_dec c c); [exact IH | congruence].
Qed.

Lemma includes_self (s : string) : includes s s = true.
Proof. destruct s; cbn [includes]; rewrite prefix_refl; reflexivity. Qed.

Lemma includes_append (p s : string) : includes s (String.append p s) = true.
Proof.
  induction p as [|c p IH].
  - apply includes_self.
  - change (String.append (String c p) s) with (String c (String.append p s)).
    cbn [includes]. rewrite IH. apply orb_true_r.
Qed.

(** ** Counting *)

Lemma count_app f (l1 l2 : list event) : count f (l1 ++ l2) = count f l1 + count f l2.
Proof. induction l1 as [|e l1 IH]; simpl; [reflexivity | rewrite IH; lia]. Qed.

Lemma filter_length_insert {A} (f : A -> bool) (l : list A) (t : nat) (x y : A) :
  l !! t = Some x ->
  length (List.filter f (<[t := y]> l)) + (if f x then 1 else 0)
  = length (List.filter f l) + (if f y then 1 else 0).
Proof.
  revert t. induction l as [|a l IH]; intros [|t] Hl; simpl in *; try discriminate.
  - injection Hl as ->. destruct (f x), (f y); simpl; lia.
  - specialize (IH t Hl). destruct (f a); simpl; lia.
Qed.

Lemma filter_length_snoc {A} (f : A -> bool) (l : list A) (x : A) :
  length (List.filter f (l ++ [x])) = length (List.filter f l) + (if f x then 1 else 0).
Proof. rewrite List.filter_app, length_app. simpl. destruct (f x); reflexivity. Qed.

(** ** The log is well formed and tells what [wasm] is bound to *)

Lemma bound_by_other e l : is_init_event e = false -> bound_by (e :: l) = bound_by l.
Proof. unfold is_init_event. destruct e; simpl; congruence. Qed.

Lemma log_inv_init : log_inv init.
Proof. split; [constructor | reflexivity]. Qed.

Lemma log_inv_same (s s' : state) :
  log_inv s -> log s' = log s -> wasm s' = wasm s -> log_inv s'.
Proof. intros [Hwf Hb] Hl Hw. split; rewrite ?Hl, ?Hw; assumption. Qed.

Lemma log_inv_emit e s : is_init_event e = false -> log_inv s -> log_inv (emit e s).
Proof.
  intros He [Hwf Hb]. split.
  - constructor; assumption.
  - change (wasm s = bound_by (e :: log s)). rewrite bound_by_other; assumption.
Qed.

Create HintDb loader.
#[local] Hint Resolve log_inv_init log_inv_emit : loader.
#[local] Hint Extern 1 (is_init_event _ = false) => reflexivity : loader.

Section Invariants.

Variable H : Host.
Variable v : variant.

Lemma initInstance_log_inv m s : log_inv s -> log_inv (fst (initInstance H m s)).
Proof.
  intros [Hwf Hb]. unfold initInstance.
  repeat case_match; simpl; split; simpl; try reflexivity;
    solve [ apply wf_link_failed; assumption
          | apply wf_inited; assumption
          | assumption ].
Qed.

Lemma loadModuleSync_log_inv s : log_inv s -> log_inv (fst (loadModuleSync H s)).
Proof.
  intros Hs. unfold loadModuleSync.
  destruct (mod_ s); [exact Hs|].
  destruct (readFileSync H _); simpl; [|auto with loader].
  destruct (newModule H _ _); simpl; [|auto with loader].
  apply (log_inv_same (emit EvNewModule (emit EvReadFileSync s)));
    [auto with loader|reflexivity|reflexivity].
Qed.

Lemma loadModule_call_log_inv s : log_inv s -> log_inv (fst (loadModule_call H v s)).
Proof.
  intros Hs. unfold loadModule_call.
  destruct (mod_ s); [exact Hs|].
  destruct (is_node v); [|destruct (has_compileStreaming H)]; simpl; auto with loader.
Qed.

Lemma loadModule_finish_log_inv m s : log_inv s -> log_inv (fst (loadModule_finish v m s)).
Proof. intros Hs. eapply log_inv_same; [exact Hs|reflexivity|reflexivity]. Qed.

Lemma resume_log_inv s p : log_inv s -> log_inv (fst (resume H v s p)).
Proof.
  intros Hs. destruct p as [k n|n|r|k b|n|[loaded|e]|r]; simpl.
  - destruct (compileStreaming H k _); [apply loadModule_finish_log_inv|]; auto.
  - destruct (fetch H n) as [r|]; [destruct (ok r)|]; simpl; auto with loader.
  - destruct (arrayBuffer r); simpl; auto with loader.
  - destruct (compile H k b); [apply loadModule_finish_log_inv|]; auto.
  - destruct (readFile H n); simpl; auto with loader.
  - pose proof (initInstance_log_inv (if uses_loaded v then loaded else mod_ s) s Hs) as Hi.
    destruct (initInstance H _ s) as [s' [i|e]]; exact Hi.
  - exact Hs.
  - exact Hs.
Qed.

Lemma get_log_inv s prop : log_inv s -> log_inv (fst (get H v s prop)).
Proof.
  intros Hs. unfold get.
  destruct (wasm s); [|exact Hs].
  destruct (is_node v); [|exact Hs].
  pose proof (loadModuleSync_log_inv s Hs) as H1.
  destruct (loadModuleSync H s) as [s1 [r|e]]; [|exact H1].
  pose proof (initInstance_log_inv (mod_ s1) s1 H1) as H2.
  destruct (initInstance H _ s1) as [s2 [i|e]]; exact H2.
Qed.

Lemma step_log_inv P a : log_inv (vars P) -> log_inv (vars (step H v P a)).
Proof.
  intros Hs. destruct a as [|t|prop]; simpl.
  - pose proof (loadModule_call_log_inv _ Hs) as H1.
    destruct (loadModule_call H v (vars P)) as [s1 p]. exact H1.
  - destruct (tasks P !! t) as [p|]; [|exact Hs].
    pose proof (resume_log_inv _ p Hs) as H1.
    destruct (resume H v (vars P) p) as [s1 p']. exact H1.
  - apply get_log_inv, Hs.
Qed.

Lemma run_log_inv sched : forall P, log_inv (vars P) -> log_inv (vars (run H v P sched)).
Proof.
  induction sched as [|a sched IH]; intros P Hs; simpl; [exact Hs|].
  apply IH, step_log_inv, Hs.
Qed.

Lemma reachable_log_inv sched : log_inv (vars (run H v boot sched)).
Proof. apply run_log_inv, log_inv_init. Qed.

End Invariants.

(** ** What a well-formed log says *)

Lemma wf_counts l :
  wf_log l ->
  count is_start l = count is_linked l
  /\ count is_set_wasm l = count is_linked l
  /\ count is_linked l <= count is_new_instance l.
Proof.
  induction 1 as [|e l He _ IH|m l _ IH|m l _ IH]; simpl; try lia.
  unfold is_init_event in He. destruct e; simpl in *; try discriminate; lia.
Qed.

Lemma wf_guard_iff l :
  wf_log l -> (bound_by l = GuardProxy <-> count is_linked l = 0).
Proof.
  induction 1 as [|e l He _ IH|m l _ IH|m l _ IH]; simpl.
  - tauto.
  - unfold is_init_event in He. destruct e; simpl in *; try discriminate; exact IH.
  - exact IH.
  - split; [discriminate | lia].
Qed.

Lemma wf_instance_lt l :
  wf_log l ->
  forall e i, In e l -> instance_of e = Some i -> i < count is_new_instance l.
Proof.
  induction 1 as [|e l He _ IH|m l _ IH|m l _ IH]; intros e' i Hin Hi; simpl in *.
  - contradiction.
  - destruct Hin as [<-|Hin].
    + unfold is_init_event in He. destruct e; simpl in *; discriminate.
    + specialize (IH _ _ Hin Hi). lia.
  - destruct Hin as [<-|Hin].
    + simpl in Hi. injection Hi as <-. lia.
    + specialize (IH _ _ Hin Hi). lia.
  - destruct Hin as [<-|[<-|[<-|Hin]]];
      try (simpl in Hi; injection Hi as <-; lia).
    specialize (IH _ _ Hin Hi). lia.
Qed.

Lemma count_start_of_zero i l :
  (forall e, In e l -> instance_of e = Some i -> False) -> count (is_start_of i) l = 0.
Proof.
  induction l as [|e l IH]; intros Hn; simpl; [reflexivity|].
  rewrite IH by (intros e' He'; apply Hn; right; exact He').
  destruct e; simpl; try reflexivity.
  destruct (Nat.eqb_spec i i0) as [->|]; [|reflexivity].
  exfalso. apply (Hn (EvStart i0)); [left|]; reflexivity.
Qed.

Lemma wf_started_once l : wf_log l -> forall i, count (is_start_of i) l <= 1.
Proof.
  induction 1 as [|e l He _ IH|m l Hwf IH|m l Hwf IH]; intros i; simpl.
  - lia.
  - specialize (IH i). unfold is_init_event in He.
    destruct e; simpl in *; try discriminate; lia.
  - apply IH.
  - destruct (Nat.eqb_spec i (count is_new_instance l)) as [->|]; [|apply IH].
    rewrite count_start_of_zero; [lia|].
    intros e He Hi. pose proof (wf_instance_lt l Hwf e _ He Hi). lia.
Qed.

Lemma wf_bound_started l i :
  wf_log l -> bound_by l = InstanceExports i ->
  In (EvStart i) l /\ exists m, In (EvNewInstance i m true) l.
Proof.
  induction 1 as [|e l He _ IH|m l _ IH|m l _ IH]; simpl; intros Hb.
  - discriminate.
  - unfold is_init_event in He.
    destruct e; simpl in *; try discriminate;
      destruct (IH Hb) as [Hs [m' Hm]]; (split; [right; exact Hs | exists m'; right; exact Hm]).
  - destruct (IH Hb) as [Hs [m' Hm]]. split; [right; exact Hs | exists m'; right; exact Hm].
  - injection Hb as <-. split; [left; reflexivity | exists m; right; right; left; reflexivity].
Qed.

(** In a log that is newest first, a rebinding has the start-up call right
    after it and the construction of the instance right before it. *)
Lemma wf_rebind_neighbours l :
  wf_log l ->
  forall newer i older, l = newer ++ EvSetWasm i :: older ->
  exists newer' m older',
    newer = newer' ++ [EvStart i] /\ older = EvNewInstance i m true :: older'.
Proof.
  induction 1 as [|e l He _ IH|m l _ IH|m l _ IH]; intros newer i older Heq.
  - destruct newer; discriminate.
  - destruct newer as [|e' newer]; simpl in Heq; injection Heq as -> Heq.
    { discriminate. }
    destruct (IH _ _ _ Heq) as (n' & m' & o' & -> & ->).
    exists (e' :: n'), m', o'. split; reflexivity.
  - destruct newer as [|e' newer]; simpl in Heq; [discriminate|].
    injection Heq as <- Heq.
    destruct (IH _ _ _ Heq) as (n' & m' & o' & -> & ->).
    eexists (_ :: n'), m', o'. split; reflexivity.
  - destruct newer as [|e1 [|e2 [|e3 newer]]]; simpl in Heq; try discriminate.
    + injection Heq as <- <- <-. exists [], m, l. split; reflexivity.
    + injection Heq as <- <- <- Heq.
      destruct (IH _ _ _ Heq) as (n' & m' & o' & -> & ->).
      eexists (_ :: _ :: _ :: n'), m', o'. split; reflexivity.
Qed.

Lemma trace_rebind_neighbours s :
  wf_log (log s) ->
  forall before i after, trace s = before ++ EvSetWasm i :: after ->
  exists before' m after',
    before = before' ++ [EvNewInstance i m true] /\ after = EvStart i :: after'.
Proof.
  intros Hwf before i after Ht. unfold trace in Ht.
  assert (Hl : log s = rev after ++ EvSetWasm i :: rev before).
  { rewrite <- (rev_involutive (log s)), Ht, rev_app_distr. simpl.
    rewrite <- app_assoc. reflexivity. }
  destruct (wf_rebind_neighbours _ Hwf _ _ _ Hl) as (n' & m & o' & Hn & Ho).
  exists (rev o'), m, (rev n'). split.
  - rewrite <- (rev_involutive before), Ho. reflexivity.
  - rewrite <- (rev_involutive after), Hn, rev_app_distr. reflexivity.
Qed.

(** ** Mechanics of one call *)

Section Calls.

Variable H : Host.
Variable v : variant.

Lemma initInstance_mod m s : mod_ (fst (initInstance H m s)) = mod_ s.
Proof. unfold initInstance. repeat case_match; reflexivity. Qed.

Lemma loadModuleSync_cached s m :
  mod_ s = Some m -> loadModuleSync H s = (s, Normal (Some m)).
Proof. intros Hm. unfold loadModuleSync. rewrite Hm. reflexivity. Qed.

(** After a successful [loadModuleSync], [mod] is set, [wasm] is what it
    was and no instance was constructed. *)
Lemma loadModuleSync_normal s s1 r :
  loadModuleSync H s = (s1, Normal r) ->
  (exists m, mod_ s1 = Some m)
  /\ wasm s1 = wasm s
  /\ count is_new_instance (log s1) = count is_new_instance (log s).
Proof.
  unfold loadModuleSync. intros Hl.
  destruct (mod_ s) as [m|] eqn:Hm.
  - injection Hl as <- _. eauto.
  - destruct (readFileSync H _); [|discriminate].
    destruct (newModule H _ _); [|discriminate].
    injection Hl as <- _. simpl. eauto.
Qed.

Lemma get_mod s prop m : mod_ s = Some m -> mod_ (fst (get H v s prop)) = Some m.
Proof.
  intros Hm. unfold get.
  destruct (wasm s); [|exact Hm].
  destruct (is_node v); [|exact Hm].
  rewrite (loadModuleSync_cached _ _ Hm).
  pose proof (initInstance_mod (mod_ s) s) as Hi.
  destruct (initInstance H (mod_ s) s) as [s2 [i|e]]; simpl in *; congruence.
Qed.

Lemma resume_rank s p : rank (snd (resume H v s p)) <= rank p - 1.
Proof.
  destruct p as [k n|n|r|k b|n|[loaded|e]|r]; simpl;
    unfold loadModule_finish; repeat case_match; simpl; lia.
Qed.

Lemma settle_done n : forall s p, rank p <= n -> exists r, snd (settle H v n s p) = Done r.
Proof.
  induction n as [|n IH]; intros s p Hr; simpl.
  - destruct p; simpl in Hr; try lia. eauto.
  - pose proof (resume_rank s p) as Hp.
    destruct (resume H v s p) as [s' p']. simpl in Hp. apply IH. lia.
Qed.

(** [await initAsync()] always settles. *)
Lemma initAsync_settles s : exists r, snd (initAsync H v s) = Done r.
Proof.
  unfold initAsync.
  assert (Hr : rank (snd (loadModule_call H v s)) <= 4).
  { unfold loadModule_call. repeat case_match; simpl; lia. }
  destruct (loadModule_call H v s) as [s1 p]. apply settle_done, Hr.
Qed.

Lemma resume_done s r : resume H v s (Done r) = (s, Done r).
Proof. reflexivity. Qed.

Lemma settle_Done n s r : settle H v n s (Done r) = (s, Done r).
Proof. induction n as [|n IH]; simpl; [reflexivity | exact IH]. Qed.

Lemma list_insert_snoc {A} (l : list A) (x y : A) :
  <[length l := y]> (l ++ [x]) = l ++ [y].
Proof. induction l as [|a l IH]; simpl; [reflexivity | rewrite IH; reflexivity]. Qed.

Lemma list_lookup_snoc {A} (l : list A) (x : A) : (l ++ [x]) !! length l = Some x.
Proof. induction l as [|a l IH]; simpl; [reflexivity | exact IH]. Qed.

Lemma run_resumes n : forall s p l,
  run H v {| vars := s; tasks := l ++ [p] |} (repeat (Resume (length l)) n)
  = {| vars := fst (settle H v n s p); tasks := l ++ [snd (settle H v n s p)] |}.
Proof.
  induction n as [|n IH]; intros s p l; simpl; [reflexivity|].
  rewrite list_lookup_snoc.
  destruct (resume H v s p) as [s' p'] eqn:Hr.
  rewrite list_insert_snoc. apply IH.
Qed.

(** [await initAsync()] is the interleaved machine run on the schedule in
    which the new call is the only one to move. *)
Lemma initAsync_run P :
  run H v P (CallInitAsync :: repeat (Resume (length (tasks P))) 4)
  = {| vars := fst (initAsync H v (vars P));
       tasks := tasks P ++ [snd (initAsync H v (vars P))] |}.
Proof.
  unfold initAsync. cbn [run fold_left step].
  destruct (loadModule_call H v (vars P)) as [s1 p].
  apply (run_resumes 4).
Qed.

Lemma settle_mod n : forall s p m,
  mod_ s = Some m -> past_load p = true ->
  mod_ (fst (settle H v n s p)) = Some m.
Proof.
  induction n as [|n IH]; intros s p m Hm Hp; simpl; [exact Hm|].
  destruct p as [k j|j|r|k b|j|[loaded|e]|r]; try discriminate; simpl.
  - pose proof (initInstance_mod (if uses_loaded v then loaded else mod_ s) s) as Hi.
    destruct (initInstance H _ s) as [s' [i|e]]; simpl in Hi;
      rewrite settle_Done; simpl; congruence.
  - rewrite settle_Done. exact Hm.
  - rewrite settle_Done. exact Hm.
Qed.

Lemma initAsync_mod s m : mod_ s = Some m -> mod_ (fst (initAsync H v s)) = Some m.
Proof.
  intros Hm. unfold initAsync, loadModule_call. rewrite Hm.
  apply settle_mod; [exact Hm | reflexivity].
Qed.

End Calls.

(** ** One call after the other *)

Lemma good_host_succeeds streaming : all_succeed (good_host streaming).
Proof. constructor; intros; try reflexivity; eexists; reflexivity. Qed.

Section Sequential.

Variable H : Host.
Variable v : variant.

Lemma initInstance_count m s :
  count is_new_instance (log (fst (initInstance H m s)))
  = S (count is_new_instance (log s)).
Proof. unfold initInstance. repeat case_match; reflexivity. Qed.

Lemma resume_count s p :
  count is_new_instance (log s)
  <= count is_new_instance (log (fst (resume H v s p))).
Proof.
  destruct p as [k n|n|r|k b|n|[loaded|e]|r]; simpl;
    unfold loadModule_finish; repeat case_match; simpl; try lia.
  all: match goal with
       | Hi : initInstance H ?m ?s0 = (?s', _) |- _ =>
           pose proof (initInstance_count m s0) as Hc; rewrite Hi in Hc;
           simpl in Hc; lia
       end.
Qed.

Lemma settle_count n : forall s p,
  count is_new_instance (log s)
  <= count is_new_instance (log (fst (settle H v n s p))).
Proof.
  induction n as [|n IH]; intros s p; simpl; [lia|].
  pose proof (resume_count s p) as Hr.
  destruct (resume H v s p) as [s' p']. specialize (IH s' p'). simpl in Hr. lia.
Qed.

(** A call that got past [await loadModule()] constructs an instance
    before it settles. *)
Lemma settle_loaded n s loaded s' r :
  settle H v n s (AwaitLoadModule (Normal loaded)) = (s', Done r) ->
  count is_new_instance (log s) < count is_new_instance (log s').
Proof.
  destruct n as [|n]; simpl; [discriminate|].
  pose proof (initInstance_count (if uses_loaded v then loaded else mod_ s) s) as Hc.
  destruct (initInstance H _ s) as [s1 [i|e]]; simpl in Hc;
    rewrite settle_Done; intros [= <- _]; lia.
Qed.

(** A call that settles without having constructed an instance left
    [mod] and [wasm] alone: its [loadModule] failed. *)
Lemma settle_load_failed n : forall s p s' r,
  settle H v n s p = (s', Done r) ->
  count is_new_instance (log s') = count is_new_instance (log s) ->
  mod_ s' = mod_ s /\ wasm s' = wasm s.
Proof.
  induction n as [|n IH]; intros s p s' r Hs Hc; simpl in Hs.
  - injection Hs as <- _. split; reflexivity.
  - destruct p as [k j|j|resp|k b|j|[loaded|e]|r0]; simpl in Hs.
    + destruct (compileStreaming H k _).
      * apply settle_loaded in Hs. simpl in Hs. lia.
      * apply (IH _ _ _ _ Hs Hc).
    + destruct (fetch H j) as [resp|e]; [destruct (ok resp)|].
      * destruct (IH _ _ _ _ Hs Hc) as [Hm Hw]. split; assumption.
      * apply (IH _ _ _ _ Hs Hc).
      * apply (IH _ _ _ _ Hs Hc).
    + destruct (arrayBuffer resp).
      * destruct (IH _ _ _ _ Hs Hc) as [Hm Hw]. split; assumption.
      * apply (IH _ _ _ _ Hs Hc).
    + destruct (compile H k b).
      * apply settle_loaded in Hs. simpl in Hs. lia.
      * apply (IH _ _ _ _ Hs Hc).
    + destruct (readFile H j).
      * destruct (IH _ _ _ _ Hs Hc) as [Hm Hw]. split; assumption.
      * apply (IH _ _ _ _ Hs Hc).
    + pose proof (initInstance_count (if uses_loaded v then loaded else mod_ s) s) as Hi.
      destruct (initInstance H _ s) as [s1 [i|e]]; simpl in Hi;
        rewrite settle_Done in Hs; injection Hs as <- _; lia.
    + rewrite settle_Done in Hs. injection Hs as <- _. split; reflexivity.
    + rewrite settle_Done in Hs. injection Hs as <- _. split; reflexivity.
Qed.

Lemma initAsync_load_failed s r :
  snd (initAsync H v s) = Done r ->
  count is_new_instance (log (fst (initAsync H v s))) = count is_new_instance (log s) ->
  mod_ (fst (initAsync H v s)) = mod_ s /\ wasm (fst (initAsync H v s)) = wasm s.
Proof.
  unfold initAsync, loadModule_call.
  destruct (mod_ s) as [m|] eqn:Hm;
    [|destruct (is_node v); [|destruct (has_compileStreaming H)]];
    match goal with
    | |- context [settle H v 4 ?s0 ?p0] =>
        destruct (settle H v 4 s0 p0) as [s' p'] eqn:Hs
    end; simpl; intros -> Hc;
    destruct (settle_load_failed _ _ _ _ _ Hs) as [Hm' Hw']; simpl in *;
    try assumption; split; congruence.
Qed.

(** On a host on which everything succeeds, a call made while [mod] is
    unset loads once, compiles once, instantiates once and resolves. *)
Lemma initAsync_fresh s :
  all_succeed H -> mod_ s = None ->
  snd (initAsync H v s) = Done (Normal tt)
  /\ mod_ (fst (initAsync H v s)) = Some (count is_compile (log s))
  /\ wasm (fst (initAsync H v s)) = InstanceExports (count is_new_instance (log s))
  /\ count is_load (log (fst (initAsync H v s))) = S (count is_load (log s))
  /\ count is_compile (log (fst (initAsync H v s))) = S (count is_compile (log s))
  /\ count is_new_instance (log (fst (initAsync H v s)))
     = S (count is_new_instance (log s)).
Proof.
  intros [Hf Hcs Hc Hrf _ _ Hni Hst] Hm. unfold initAsync, loadModule_call. rewrite Hm.
  destruct (is_node v) eqn:Hv; [|destruct (has_compileStreaming H)].
  - cbn [settle resume]. destruct (Hrf (count is_read_file (log s))) as [b ->].
    cbn [settle resume]. rewrite Hc. unfold loadModule_finish.
    cbn [settle resume]. unfold loadModule_ret, initInstance.
    assert (Hu : uses_loaded v = false) by (destruct v; simpl in *; congruence).
    rewrite Hu. cbn [mod_ set_mod]. rewrite Hni, Hst. simpl. repeat split; lia.
  - cbn [settle resume]. rewrite Hcs. unfold loadModule_finish.
    cbn [settle resume]. unfold loadModule_ret, initInstance.
    destruct (uses_loaded v); cbn [mod_ set_mod]; rewrite Hni, Hst; simpl;
      repeat split; lia.
  - cbn [settle resume]. destruct (Hf (count is_fetch (log s))) as [b ->].
    cbn [settle resume ok arrayBuffer]. rewrite Hc. unfold loadModule_finish.
    cbn [settle resume]. unfold loadModule_ret, initInstance.
    destruct (uses_loaded v); cbn [mod_ set_mod]; rewrite Hni, Hst; simpl;
      repeat split; lia.
Qed.

End Sequential.

Section AutoLoad.

Variable H : Host.
Variable v : variant.

(** On a host on which everything succeeds, the first property read in a
    Node entry point reads, compiles and instantiates once and evaluates
    to the export of the new instance. *)
Lemma get_fresh s prop :
  all_succeed H -> is_node v = true -> wasm s = GuardProxy -> mod_ s = None ->
  snd (get H v s prop) = Normal (ExportMember (count is_new_instance (log s)) prop)
  /\ mod_ (fst (get H v s prop)) = Some (count is_compile (log s))
  /\ wasm (fst (get H v s prop)) = InstanceExports (count is_new_instance (log s))
  /\ count is_load (log (fst (get H v s prop))) = S (count is_load (log s))
  /\ count is_compile (log (fst (get H v s prop))) = S (count is_compile (log s))
  /\ count is_new_instance (log (fst (get H v s prop)))
     = S (count is_new_instance (log s)).
Proof.
  intros [_ _ _ _ Hrs Hnm Hni Hst] Hv Hw Hm.
  unfold get, loadModuleSync. rewrite Hw, Hv, Hm.
  destruct (Hrs (count is_read_file_sync (log s))) as [b ->].
  rewrite Hnm. unfold initInstance. cbn [mod_ set_mod]. rewrite Hni, Hst.
  simpl. repeat split; lia.
Qed.

Lemma get_bound s i prop :
  wasm s = InstanceExports i -> get H v s prop = (s, Normal (ExportMember i prop)).
Proof. intros Hw. unfold get. rewrite Hw. reflexivity. Qed.

End AutoLoad.

(** ** Invariants of interleaved runs *)

Lemma run_invariant (H : Host) (v : variant) (I : process -> Prop) :
  (forall P a, I P -> I (step H v P a)) ->
  forall sched P, I P -> I (run H v P sched).
Proof.
  intros Hstep sched. induction sched as [|a sched IH]; intros P HP; simpl.
  - exact HP.
  - apply IH, Hstep, HP.
Qed.

Lemma get_fetch_variant (H : Host) (v : variant) (s : state) (prop : string) :
  is_node v = false -> fst (get H v s prop) = s.
Proof. intros Hv. unfold get. rewrite Hv. destruct (wasm s); reflexivity. Qed.

(** The streaming invariant survives a settlement that emits no buffered
    event and leaves the call past its compile. *)
Ltac keep_streaming Ht :=
  repeat split; try assumption; apply Forall_insert; [exact Ht | reflexivity].

Lemma path_inv_step (H : Host) (v : variant) (P : process) (a : action) :
  is_node v = false -> path_inv H P -> path_inv H (step H v P a).
Proof.
  intros Hv. unfold path_inv.
  destruct (has_compileStreaming H) eqn:Hcs.
  - intros (Ht & Hb & Hs). destruct a as [|t|prop]; cbn [step].
    + unfold loadModule_call. rewrite Hv, Hcs.
      destruct (mod_ (vars P)); cbn [vars tasks log emit count is_buffered is_streaming is_fetch].
      * repeat split; try assumption. apply Forall_app. split; [exact Ht|].
        constructor; [reflexivity | constructor].
      * repeat split; try lia. apply Forall_app. split; [exact Ht|].
        constructor; [reflexivity | constructor].
    + destruct (tasks P !! t) as [p|] eqn:Hp; [|repeat split; assumption].
      assert (Hpb : awaits_bytes p = false).
      { rewrite Forall_forall in Ht. apply Ht. eapply list_elem_of_lookup_2. exact Hp. }
      destruct p as [k j|j|r|k b|j|[loaded|e]|r]; try discriminate; cbn [resume].
      * destruct (compileStreaming H k _); cbn [loadModule_finish vars tasks log set_mod];
          keep_streaming Ht.
      * destruct (compile H k b); cbn [loadModule_finish vars tasks log set_mod];
          keep_streaming Ht.
      * unfold initInstance.
        repeat case_match; simplify_eq; cbn [vars tasks log emit wbg_set_wasm count
          is_buffered is_streaming is_fetch];
          keep_streaming Ht.
      * keep_streaming Ht.
      * keep_streaming Ht.
    + rewrite get_fetch_variant by exact Hv. repeat split; assumption.
  - intros Hs. destruct a as [|t|prop]; cbn [step].
    + unfold loadModule_call. rewrite Hv, Hcs.
      destruct (mod_ (vars P)); simpl; exact Hs.
    + destruct (tasks P !! t) as [p|]; [|exact Hs].
      destruct p as [k j|j|r|k b|j|[loaded|e]|r]; cbn [resume];
        unfold loadModule_finish, initInstance; repeat case_match; simplify_eq;
        simpl; exact Hs.
    + rewrite get_fetch_variant by exact Hv. exact Hs.
Qed.

(** ** Property reads in a row *)

Lemma gets_bound (H : Host) (v : variant) (props : list string) (s : state) (i : nat) :
  wasm s = InstanceExports i ->
  gets H v s props = (s, map (fun prop => Normal (ExportMember i prop)) props).
Proof.
  intros Hw. induction props as [|prop props IH]; simpl; [reflexivity|].
  rewrite (get_bound H v s i prop Hw), IH. reflexivity.
Qed.

(** Property reads in a row are the interleaved machine run on [Get]s. *)
Lemma gets_run (H : Host) (v : variant) (props : list string) :
  forall P,
    run H v P (map Get props)
    = {| vars := fst (gets H v (vars P) props); tasks := tasks P |}.
Proof.
  induction props as [|prop props IH]; intros P; simpl.
  - destruct P; reflexivity.
  - rewrite IH. cbn [step vars tasks gets].
    destruct (get H v (vars P) prop) as [s1 r]. cbn [fst].
    destruct (gets H v s1 props) as [s2 rs]. reflexivity.
Qed.

(** ** Runs on a host on which every request succeeds *)

Lemma healthy_mono v s s' p :
  (mod_ s' = mod_ s \/ mod_ s' <> None) -> healthy v s p -> healthy v s' p.
Proof.
  intros Hm. destruct p as [k n|n|r|k b|n|[loaded|e]|r]; simpl; auto.
  destruct (uses_loaded v); [auto|]. destruct Hm as [->|Hm]; auto.
Qed.

Section GoodHost.

Variable H : Host.
Variable v : variant.
Hypothesis Hgood : all_succeed H.

Lemma resume_good s p :
  healthy v s p ->
  healthy v (fst (resume H v s p)) (snd (resume H v s p))
  /\ (mod_ (fst (resume H v s p)) = mod_ s \/ mod_ (fst (resume H v s p)) <> None)
  /\ count is_new_instance (log (fst (resume H v s p))) + b2n (is_done p)
     = count is_new_instance (log s) + b2n (is_done (snd (resume H v s p)))
  /\ count is_linked (log (fst (resume H v s p))) + b2n (is_done p)
     = count is_linked (log s) + b2n (is_done (snd (resume H v s p)))
  /\ count is_load (log (fst (resume H v s p))) = count is_load (log s)
  /\ count is_compile (log (fst (resume H v s p)))
       + b2n (awaits_bytes (snd (resume H v s p)))
     = count is_compile (log s) + b2n (awaits_bytes p).
Proof.
  destruct Hgood as [Hf Hcs Hc Hrf _ _ Hni Hst].
  destruct p as [k n|n|r|k b|n|[loaded|e]|[[]|e]]; cbn [resume healthy]; intros Hh.
  - rewrite Hcs. unfold loadModule_finish, loadModule_ret. simpl.
    repeat split; auto; try lia; destruct (uses_loaded v); discriminate.
  - destruct (Hf n) as [b ->]. simpl. repeat split; eauto; lia.
  - destruct Hh as [b ->]. simpl. repeat split; auto; lia.
  - rewrite Hc. unfold loadModule_finish, loadModule_ret. simpl.
    repeat split; auto; try lia; destruct (uses_loaded v); discriminate.
  - destruct (Hrf n) as [b ->]. simpl. repeat split; auto; lia.
  - unfold initInstance.
    destruct (if uses_loaded v then loaded else mod_ s) as [m|]; [|congruence].
    rewrite Hni, Hst. simpl. repeat split; auto; lia.
  - contradiction.
  - simpl. repeat split; auto; lia.
  - contradiction.
Qed.

Lemma good_inv_boot : good_inv v boot.
Proof.
  constructor; simpl; auto. intros [Hm|Ht]; congruence.
Qed.

Lemma good_inv_call P : good_inv v P -> good_inv v (step H v P CallInitAsync).
Proof.
  intros [Hh Hi Hl Hc Hld Hm]. cbn [step]. unfold loadModule_call.
  destruct (mod_ (vars P)) as [m|] eqn:Hmod.
  - constructor; cbn [vars tasks];
      unfold settled, awaiting_bytes in *; rewrite ?filter_length_snoc, ?length_app;
      simpl; try lia.
    + apply Forall_app. split; [exact Hh|]. constructor; [|constructor].
      simpl. rewrite Hmod. destruct (uses_loaded v); discriminate.
    + intros _. apply Hm. left. discriminate.
  - destruct (is_node v); [|destruct (has_compileStreaming H)];
      constructor; cbn [vars tasks log emit mod_ count is_new_instance is_linked
                          is_load is_compile];
      unfold settled, awaiting_bytes in *; rewrite ?filter_length_snoc, ?length_app;
      simpl; try lia;
      try (apply Forall_app; split; [|constructor; [exact I|constructor]];
           eapply Forall_impl; [exact Hh|]; intros q; apply healthy_mono; left; reflexivity).
Qed.

Lemma good_inv_resume P t : good_inv v P -> good_inv v (step H v P (Resume t)).
Proof.
  intros HP. cbn [step].
  destruct (tasks P !! t) as [p|] eqn:Hp; [|exact HP].
  destruct HP as [Hh Hi Hl Hc Hld Hm].
  assert (Hhp : healthy v (vars P) p).
  { rewrite Forall_forall in Hh. apply Hh. eapply list_elem_of_lookup_2. exact Hp. }
  destruct (resume_good _ _ Hhp) as (Hh' & Hmod & Hi' & Hl' & Hld' & Hc').
  pose proof (filter_length_insert is_done _ _ _ (snd (resume H v (vars P) p)) Hp) as Hd.
  pose proof (filter_length_insert awaits_bytes _ _ _ (snd (resume H v (vars P) p)) Hp) as Ha.
  destruct (resume H v (vars P) p) as [s1 p']. cbn [fst snd] in *.
  unfold b2n in *.
  constructor; cbn [vars tasks]; unfold settled, awaiting_bytes in *.
  - apply Forall_insert; [|exact Hh'].
    eapply Forall_impl; [exact Hh|]. intros q. apply healthy_mono, Hmod.
  - lia.
  - lia.
  - lia.
  - rewrite length_insert. lia.
  - intros _. rewrite Hld'. apply Hm. right. intros Hn. rewrite Hn in Hp. discriminate.
Qed.

Lemma good_inv_run sched :
  reads sched = 0 -> forall P, good_inv v P -> good_inv v (run H v P sched).
Proof.
  induction sched as [|a sched IH]; intros Hr P HP; simpl; [exact HP|].
  unfold reads in *. destruct a as [|t|prop]; simpl in Hr; try discriminate;
    apply IH; auto using good_inv_call, good_inv_resume.
Qed.

End GoodHost.

(** ** Instantiations against calls and reads *)

Section Potential.

Variable H : Host.
Variable v : variant.

Lemma loadModule_call_instances s :
  count is_new_instance (log (fst (loadModule_call H v s)))
  = count is_new_instance (log s)
  /\ is_pending (snd (loadModule_call H v s)) = true.
Proof. unfold loadModule_call. repeat case_match; simpl; auto. Qed.

Lemma resume_potential s p :
  count is_new_instance (log (fst (resume H v s p)))
    + b2n (is_pending (snd (resume H v s p)))
  <= count is_new_instance (log s) + b2n (is_pending p).
Proof.
  destruct p as [k n|n|r|k b|n|[loaded|e]|r]; cbn [resume];
    unfold loadModule_finish; try (repeat case_match; simpl; lia).
  pose proof (initInstance_count H (if uses_loaded v then loaded else mod_ s) s) as Hc.
  destruct (initInstance H _ s) as [s' [i|e]]; simpl in *; lia.
Qed.

Lemma loadModuleSync_instances s :
  count is_new_instance (log (fst (loadModuleSync H s)))
  = count is_new_instance (log s).
Proof. unfold loadModuleSync. repeat case_match; simpl; auto. Qed.

Lemma get_potential s prop :
  count is_new_instance (log (fst (get H v s prop)))
  <= S (count is_new_instance (log s)).
Proof.
  unfold get. destruct (wasm s); [|simpl; lia].
  destruct (is_node v); [|simpl; lia].
  pose proof (loadModuleSync_instances s) as Hl.
  destruct (loadModuleSync H s) as [s1 [r|e]]; simpl in Hl; [|simpl; lia].
  pose proof (initInstance_count H (mod_ s1) s1) as Hi.
  destruct (initInstance H (mod_ s1) s1) as [s2 [i|e]]; simpl in *; lia.
Qed.

Lemma potential_step P a :
  potential (step H v P a) <= potential P + b2n (is_call a) + b2n (is_get a).
Proof.
  unfold potential, pending. destruct a as [|t|prop]; cbn [step is_call is_get b2n].
  - destruct (loadModule_call_instances (vars P)) as [Hc Hp].
    destruct (loadModule_call H v (vars P)) as [s1 p]. cbn [fst snd vars tasks] in *.
    rewrite filter_length_snoc, Hp. lia.
  - destruct (tasks P !! t) as [p|] eqn:Hp; [|lia].
    pose proof (resume_potential (vars P) p) as Hr.
    pose proof (filter_length_insert is_pending _ _ _ (snd (resume H v (vars P) p)) Hp) as Hf.
    destruct (resume H v (vars P) p) as [s1 p']. cbn [fst snd vars tasks] in *.
    unfold b2n in *. lia.
  - pose proof (get_potential (vars P) prop). cbn [vars tasks]. lia.
Qed.

Lemma potential_run sched : forall P,
  potential (run H v P sched) <= potential P + calls sched + reads sched.
Proof.
  induction sched as [|a sched IH]; intros P; simpl; [unfold calls, reads; simpl; lia|].
  specialize (IH (step H v P a)). pose proof (potential_step P a) as Hs.
  unfold calls, reads in *. simpl.
  destruct a; simpl in *; lia.
Qed.

Lemma length_tasks_run sched : forall P,
  length (tasks (run H v P sched)) = length (tasks P) + calls sched.
Proof.
  induction sched as [|a sched IH]; intros P; simpl; [unfold calls; simpl; lia|].
  rewrite IH. unfold calls. destruct a as [|t|prop]; cbn [step].
  - destruct (loadModule_call H v (vars P)) as [s1 p]. simpl.
    rewrite length_app. simpl. lia.
  - destruct (tasks P !! t) as [p|]; [|simpl; lia].
    destruct (resume H v (vars P) p) as [s1 p']. simpl. rewrite length_insert. lia.
  - simpl. lia.
Qed.

End Potential.

(** ** Two calls *)

Lemma wf_all_linked_bound l :
  wf_log l ->
  count is_linked l = count is_new_instance l ->
  0 < count is_new_instance l ->
  bound_by l = InstanceExports (count is_new_instance l - 1).
Proof.
  induction 1 as [|e l He Hwf IH|m l Hwf IH|m l Hwf IH]; intros Heq Hpos.
  - simpl in Hpos. lia.
  - rewrite bound_by_other by exact He.
    unfold is_init_event in He.
    destruct e; simpl in *; try discriminate; apply IH; lia.
  - destruct (wf_counts _ Hwf) as (_ & _ & Hle). simpl in Heq. lia.
  - simpl. f_equal. lia.
Qed.

Lemma all_resolved v s (l : list pc) :
  pending l = 0 -> Forall (healthy v s) l -> l = repeat (Done (Normal tt)) (length l).
Proof.
  unfold pending. induction l as [|p l IH]; intros Hp Hh; [reflexivity|].
  inversion Hh as [|? ? Hhp Hhl]; subst.
  destruct p as [k n|n|r|k b|n|c|[[]|e]]; simpl in Hp; try discriminate.
  - simpl. f_equal. apply IH; assumption.
  - contradiction.
Qed.

Lemma settled_pending (l : list pc) : settled l + pending l = length l.
Proof.
  unfold settled, pending, is_done. induction l as [|p l IH]; simpl; [reflexivity|].
  destruct (is_pending p); simpl; lia.
Qed.

Section Loads.

Variable H : Host.
Variable v : variant.

Lemma resume_loads s p :
  count is_load (log (fst (resume H v s p))) = count is_load (log s).
Proof.
  destruct p as [k n|n|r|k b|n|[loaded|e]|r]; cbn [resume];
    unfold loadModule_finish, initInstance; repeat case_match; simplify_eq;
    reflexivity.
Qed.

(** Settlements alone neither fetch nor read. *)
Lemma run_loads sched : forall P,
  calls sched = 0 -> reads sched = 0 ->
  count is_load (log (vars (run H v P sched))) = count is_load (log (vars P)).
Proof.
  unfold calls, reads.
  induction sched as [|a sched IH]; intros P Hc Hr; simpl; [reflexivity|].
  destruct a as [|t|prop]; simpl in Hc, Hr; try discriminate.
  rewrite IH by assumption. cbn [step].
  destruct (tasks P !! t) as [p|]; [|reflexivity].
  pose proof (resume_loads (vars P) p) as Hl.
  destruct (resume H v (vars P) p) as [s1 p']. exact Hl.
Qed.

Lemma calls_app (l1 l2 : list action) : calls (l1 ++ l2) = calls l1 + calls l2.
Proof. unfold calls. rewrite List.filter_app, length_app. reflexivity. Qed.

Lemma reads_app (l1 l2 : list action) : reads (l1 ++ l2) = reads l1 + reads l2.
Proof. unfold reads. rewrite List.filter_app, length_app. reflexivity. Qed.

Lemma run_app (l1 l2 : list action) P : run H v P (l1 ++ l2) = run H v (run H v P l1) l2.
Proof. unfold run. apply fold_left_app. Qed.

End Loads.

(** ** Linked instances against resolved calls *)

Section Resolved.

Variable H : Host.
Variable v : variant.
Hypothesis Hstart : forall i, wbindgen_start H i = Normal tt.

Lemma resume_resolved s p :
  count is_linked (log (fst (resume H v s p))) + b2n (is_resolved p)
  = count is_linked (log s) + b2n (is_resolved (snd (resume H v s p))).
Proof.
  destruct p as [k n|n|r|k b|n|[loaded|e]|[[]|e]]; cbn [resume];
    unfold loadModule_finish, initInstance; rewrite ?Hstart;
    repeat case_match; simplify_eq; simpl; lia.
Qed.

(** In the fetch entry points, while the start-up export does not throw,
    the instances that linked are the calls that resolved. *)
Lemma linked_resolved sched :
  is_node v = false ->
  count is_linked (log (vars (run H v boot sched)))
  = resolved (tasks (run H v boot sched)).
Proof.
  intros Hv. apply (run_invariant H v
    (fun P => count is_linked (log (vars P)) = resolved (tasks P))); [|reflexivity].
  intros P a HP. unfold resolved in *. destruct a as [|t|prop]; cbn [step].
  - unfold loadModule_call. rewrite Hv.
    destruct (mod_ (vars P)); [|destruct (has_compileStreaming H)];
      cbn [vars tasks]; rewrite filter_length_snoc; simpl; lia.
  - destruct (tasks P !! t) as [p|] eqn:Hp; [|exact HP].
    pose proof (resume_resolved (vars P) p) as Hr.
    pose proof (filter_length_insert is_resolved _ _ _ (snd (resume H v (vars P) p)) Hp) as Hf.
    destruct (resume H v (vars P) p) as [s1 p']. cbn [fst snd vars tasks] in *.
    unfold b2n in *. lia.
  - rewrite get_fetch_variant by exact Hv. exact HP.
Qed.

End Resolved.

(** When the start-up export throws, the call is rejected although [wasm]
    is already bound to the new instance. *)
Example start_failure_leaves_wasm_rebound :
  initAsync (failing_start_host true) IndexCjs init
  = ({| mod_ := Some 0;
        wasm := InstanceExports 0;
        log := [EvStart 0; EvSetWasm 0; EvNewInstance 0 (Some 0) true;
                EvCompileStreaming; EvFetch] |},
     Done (Throw (mkError "RuntimeError" "unreachable"))).
Proof. reflexivity. Qed.

(** Calls that overlap do assign [mod] twice: the second compile settles
    after the first and overwrites its module. *)
Example overlapping_calls_assign_mod_twice :
  let sched := [CallInitAsync; CallInitAsync; Resume 0] in
  mod_ (vars (run (good_host true) IndexCjs boot sched)) = Some 0
  /\ mod_ (vars (run (good_host true) IndexCjs boot (sched ++ [Resume 1]))) = Some 1.
Proof. split; reflexivity. Qed.

(** * The claims *)

(** ** C1 *)

(** C1, as stated, fails: a second call of [initAsync] after the first one
    resolved constructs a second instance and calls its [__wbindgen_start],
    and so does a call of [initAsync] after a property read has loaded the
    module in a Node entry point. *)
Lemma C1_second_call_instantiates_again :
  let s := vars (run (good_host true) IndexCjs boot
                   [CallInitAsync; Resume 0; Resume 0; CallInitAsync; Resume 1]) in
  let s' := vars (run (good_host false) NodeCjs boot
                    [Get "olmmachine_new"; CallInitAsync; Resume 0]) in
  ~ (count is_start (log s) <= 1 /\ count is_linked (log s) <= 1)
  /\ count is_start (log s) = 2
  /\ count is_linked (log s) = 2
  /\ count is_start (log s') = 2
  /\ count is_linked (log s') = 2.
Proof.
  simpl. repeat split; try reflexivity. intros [Hs _]. vm_compute in Hs. lia.
Qed.

(** C1, amended: in every run, the [__wbindgen_start] of each instance is
    called at most once, the start-up calls are as many as the instances
    that linked, and the instances constructed are at most as many as the
    calls of [initAsync] and the property reads together.  Nothing keeps a
    second call from instantiating again: on a host that answers every
    request, in a run without property reads, the instances (and the
    start-up calls) are exactly as many as the calls of [initAsync] that
    have settled. *)
Theorem C1_one_instance_per_initialization
  (H : Host) (v : variant) (sched : list action) :
  let P := run H v boot sched in
  (forall i, count (is_start_of i) (log (vars P)) <= 1)
  /\ count is_start (log (vars P)) = count is_linked (log (vars P))
  /\ count is_new_instance (log (vars P)) + pending (tasks P)
     <= calls sched + reads sched
  /\ (all_succeed H -> reads sched = 0 ->
      count is_linked (log (vars P)) = settled (tasks P)
      /\ count is_start (log (vars P)) = settled (tasks P)).
Proof.
  intros P. destruct (reachable_log_inv H v sched) as [Hwf _]. fold P in Hwf.
  destruct (wf_counts _ Hwf) as (Hs & _ & _).
  split; [|split; [|split]].
  - apply wf_started_once, Hwf.
  - exact Hs.
  - pose proof (potential_run H v sched boot) as Hp. unfold potential in Hp.
    fold P in Hp. simpl in Hp. exact Hp.
  - intros Hgood Hr.
    destruct (good_inv_run H v Hgood sched Hr boot (good_inv_boot v)) as [_ _ Hl _ _ _].
    fold P in Hl. split; lia.
Qed.

(** Two calls one after the other on a working host: two instances, two
    start-up calls. *)
Lemma C1_one_instance_per_initialization_witness :
  let P := run (good_host true) IndexCjs boot
             [CallInitAsync; Resume 0; Resume 0; CallInitAsync; Resume 1; Resume 1] in
  settled (tasks P) = 2
  /\ count is_linked (log (vars P)) = settled (tasks P)
  /\ count is_start (log (vars P)) = settled (tasks P).
Proof.
  intros P. split; [reflexivity|].
  destruct (C1_one_instance_per_initialization (good_host true) IndexCjs
              [CallInitAsync; Resume 0; Resume 0; CallInitAsync; Resume 1; Resume 1])
    as (_ & _ & _ & Hk).
  exact (Hk (good_host_succeeds true) eq_refl).
Defined.

(** ** C2 *)

(** C2, as stated, fails: two calls of [initAsync] one after the other
    fetch once and compile once but instantiate twice, and two calls both
    made before the first compile has settled fetch twice, compile twice and
    instantiate twice. *)
Lemma C2_two_calls_instantiate_twice :
  let s := vars (run (good_host true) IndexCjs boot
                   [CallInitAsync; Resume 0; Resume 0; CallInitAsync; Resume 1]) in
  let s' := vars (run (good_host true) IndexCjs boot
                    [CallInitAsync; CallInitAsync; Resume 0; Resume 1; Resume 0; Resume 1]) in
  ~ (count is_load (log s) = 1 /\ count is_compile (log s) = 1
     /\ count is_new_instance (log s) = 1)
  /\ count is_new_instance (log s) = 2
  /\ ~ (count is_load (log s') = 1 /\ count is_compile (log s') = 1
        /\ count is_new_instance (log s') = 1)
  /\ count is_load (log s') = 2
  /\ count is_compile (log s') = 2
  /\ count is_new_instance (log s') = 2.
Proof.
  simpl. repeat split; try reflexivity.
  - intros (_ & _ & Hi). vm_compute in Hi. discriminate.
  - intros (Hl & _). vm_compute in Hl. discriminate.
Qed.

(** C2, amended: on a host that answers every request, once two calls of
    [initAsync] have both settled, under any interleaving, both are
    resolved, two instances have been constructed, linked and started, and
    [wasm] is bound to the exports of the second of them, which is what
    every later read sees.  The binary was fetched or read, and compiled,
    once if [mod] was already set when the second call was made and twice
    otherwise. *)
Theorem C2_two_calls
  (H : Host) (v : variant) (sched : list action) :
  all_succeed H ->
  reads sched = 0 ->
  calls sched = 2 ->
  pending (tasks (run H v boot sched)) = 0 ->
  let P := run H v boot sched in
  tasks P = [Done (Normal tt); Done (Normal tt)]
  /\ count is_new_instance (log (vars P)) = 2
  /\ count is_linked (log (vars P)) = 2
  /\ count is_start (log (vars P)) = 2
  /\ count is_compile (log (vars P)) = count is_load (log (vars P))
  /\ wasm (vars P) = InstanceExports 1
  /\ (forall prop, get H v (vars P) prop = (vars P, Normal (ExportMember 1 prop)))
  /\ (forall sched1 sched2,
        sched = sched1 ++ CallInitAsync :: sched2 ->
        calls sched1 = 1 ->
        count is_load (log (vars P))
        = match mod_ (vars (run H v boot sched1)) with
          | Some _ => 1
          | None => 2
          end).
Proof.
  intros Hgood Hr Hc Hp P.
  destruct (good_inv_run H v Hgood sched Hr boot (good_inv_boot v))
    as [Hh Hi Hl Hcm Hld Hm].
  fold P in Hh, Hi, Hl, Hcm, Hld, Hm, Hp.
  pose proof (length_tasks_run H v sched boot) as Hlen. fold P in Hlen.
  simpl in Hlen. rewrite Hc in Hlen.
  pose proof (settled_pending (tasks P)) as Hsp. rewrite Hp, Hlen in Hsp.
  destruct (reachable_log_inv H v sched) as [Hwf Hb]. fold P in Hwf, Hb.
  destruct (wf_counts _ Hwf) as (Hs & _ & _).
  assert (Hw : wasm (vars P) = InstanceExports 1).
  { rewrite Hb, (wf_all_linked_bound _ Hwf) by lia.
    rewrite Hi. replace (settled (tasks P)) with 2 by lia. reflexivity. }
  assert (Hab : awaiting_bytes (tasks P) = 0).
  { rewrite (all_resolved v _ _ Hp Hh), Hlen. reflexivity. }
  split; [|split; [|split; [|split; [|split; [|split; [|split]]]]]]; try lia.
  - rewrite (all_resolved v _ _ Hp Hh), Hlen. reflexivity.
  - exact Hw.
  - intros prop. apply get_bound, Hw.
  - intros sched1 sched2 Heq Hc1.
    assert (Hr1 : reads sched1 = 0 /\ reads sched2 = 0).
    { rewrite Heq, reads_app in Hr. unfold reads in *. simpl in Hr. lia. }
    assert (Hc2 : calls sched2 = 0).
    { rewrite Heq, calls_app in Hc. unfold calls in *. simpl in Hc. lia. }
    destruct Hr1 as [Hr1 Hr2].
    destruct (good_inv_run H v Hgood sched1 Hr1 boot (good_inv_boot v))
      as [_ _ _ _ Hld1 Hm1].
    pose proof (length_tasks_run H v sched1 boot) as Hlen1.
    simpl in Hlen1. rewrite Hc1 in Hlen1.
    assert (Hone : count is_load (log (vars (run H v boot sched1))) = 1).
    { assert (1 <= count is_load (log (vars (run H v boot sched1)))).
      { apply Hm1. right. intros Hn. rewrite Hn in Hlen1. discriminate. }
      lia. }
    unfold P. rewrite Heq, run_app. cbn [run fold_left].
    change (fold_left (step H v) sched2 ?Q) with (run H v Q sched2).
    rewrite run_loads by assumption.
    cbn [step]. unfold loadModule_call.
    destruct (mod_ (vars (run H v boot sched1))); [exact Hone|].
    destruct (is_node v); [|destruct (has_compileStreaming H)]; simpl; rewrite Hone;
      reflexivity.
Qed.

(** Two calls one after the other: one fetch, two instances, [wasm] bound
    to the second. *)
Lemma C2_two_calls_witness :
  let sequential := [CallInitAsync; Resume 0; Resume 0; CallInitAsync; Resume 1] in
  let P := run (good_host true) IndexCjs boot sequential in
  tasks P = [Done (Normal tt); Done (Normal tt)]
  /\ count is_new_instance (log (vars P)) = 2
  /\ wasm (vars P) = InstanceExports 1
  /\ count is_load (log (vars P)) = 1.
Proof.
  intros sequential P.
  destruct (C2_two_calls (good_host true) IndexCjs sequential
              (good_host_succeeds true) eq_refl eq_refl eq_refl)
    as (Ht & Hi & _ & _ & _ & Hw & _ & Hl).
  split; [exact Ht|]. split; [exact Hi|]. split; [exact Hw|].
  exact (Hl [CallInitAsync; Resume 0; Resume 0] [Resume 1] eq_refl eq_refl).
Defined.

(** ** C3 *)

(** C3, as stated, fails: in [index.js], on a host whose binary links but
    whose start-up export throws, the only call of [initAsync] is rejected,
    so no initialization has succeeded, and yet a property read on [wasm]
    is served by the new instance instead of throwing the error of the
    [Proxy]. *)
Lemma C3_read_after_failed_start_is_served :
  let H := failing_start_host true in
  let P := run H IndexCjs boot [CallInitAsync; Resume 0; Resume 0] in
  is_node IndexCjs = false
  /\ tasks P = [Done (Throw (mkError "RuntimeError" "unreachable"))]
  /\ resolved (tasks P) = 0
  /\ get H IndexCjs (vars P) "olmmachine_new"
     = (vars P, Normal (ExportMember 0 "olmmachine_new"))
  /\ snd (get H IndexCjs (vars P) "olmmachine_new") <> Throw premature_use.
Proof.
  simpl. repeat (split; [reflexivity|]). discriminate.
Qed.

(** C3, amended: in the fetch entry points, in every state reached before
    any instance has been linked (so before [wasm] was rebound) and, on a
    host whose start-up export does not throw, in every state reached before
    any call of [initAsync] has resolved, every property read on [wasm]
    throws the error of the [Proxy], whatever the property, and leaves the
    state as it is; the message of that error names [initAsync]. *)
Theorem C3_premature_use_error
  (H : Host) (v : variant) (sched : list action) (prop : string) :
  is_node v = false ->
  count is_linked (log (vars (run H v boot sched))) = 0
  \/ ((forall i, wbindgen_start H i = Normal tt)
      /\ resolved (tasks (run H v boot sched)) = 0) ->
  get H v (vars (run H v boot sched)) prop
  = (vars (run H v boot sched), Throw premature_use)
  /\ includes "Call `initAsync` first" (err_message premature_use) = true.
Proof.
  intros Hv Hbefore. split; [|reflexivity].
  assert (Hc : count is_linked (log (vars (run H v boot sched))) = 0).
  { destruct Hbefore as [Hc|[Hstart Hr]]; [exact Hc|].
    rewrite (linked_resolved H v Hstart sched Hv). exact Hr. }
  destruct (reachable_log_inv H v sched) as [Hwf Hb].
  apply (wf_guard_iff _ Hwf) in Hc. rewrite <- Hb in Hc.
  unfold get. rewrite Hc, Hv. reflexivity.
Qed.

(** A read before the call, and reads after the call was rejected because
    the network is down. *)
Lemma C3_premature_use_error_witness :
  let P := run (offline_host false) IndexEsm boot
             [Get "olmmachine_new"; CallInitAsync; Resume 0; Resume 0] in
  outcome P 0 = Some (Throw (type_error "Failed to fetch"))
  /\ get (offline_host false) IndexEsm (vars P) "olmmachine_new"
     = (vars P, Throw premature_use)
  /\ includes "Call `initAsync` first" (err_message premature_use) = true.
Proof.
  split; [reflexivity|].
  apply (C3_premature_use_error (offline_host false) IndexEsm
           [Get "olmmachine_new"; CallInitAsync; Resume 0; Resume 0]
           "olmmachine_new"); [reflexivity|].
  right. split; [intros i; reflexivity | reflexivity].
Defined.

(** ** C4 *)

(** C4: a call of [initAsync] made while [mod] is unset and rejected
    without having reached the instantiation (its fetch, read or compile
    failed) leaves [mod] unset and [wasm] as it was; the next call, on a
    host that now answers every request, fetches or reads again, compiles
    again, resolves, sets [mod] and rebinds [wasm].  The same holds for the
    synchronous path of the Node entry points: a property read whose
    [loadModuleSync] throws leaves [mod] unset and the [Proxy] in place, and
    the next read loads, compiles and evaluates to an export. *)
Theorem C4_failed_load_is_not_cached
  (H1 H2 : Host) (v : variant) (s : state) :
  mod_ s = None ->
  all_succeed H2 ->
  (forall e,
      snd (initAsync H1 v s) = Done (Throw e) ->
      count is_new_instance (log (fst (initAsync H1 v s)))
      = count is_new_instance (log s) ->
      let s1 := fst (initAsync H1 v s) in
      let s2 := fst (initAsync H2 v s1) in
      mod_ s1 = None
      /\ wasm s1 = wasm s
      /\ snd (initAsync H2 v s1) = Done (Normal tt)
      /\ mod_ s2 = Some (count is_compile (log s1))
      /\ wasm s2 = InstanceExports (count is_new_instance (log s1))
      /\ count is_load (log s2) = S (count is_load (log s1))
      /\ count is_compile (log s2) = S (count is_compile (log s1)))
  /\ (forall prop e s1,
      is_node v = true ->
      wasm s = GuardProxy ->
      loadModuleSync H1 s = (s1, Throw e) ->
      let s2 := fst (get H2 v s1 prop) in
      get H1 v s prop = (s1, Throw e)
      /\ mod_ s1 = None
      /\ wasm s1 = GuardProxy
      /\ snd (get H2 v s1 prop)
         = Normal (ExportMember (count is_new_instance (log s1)) prop)
      /\ mod_ s2 = Some (count is_compile (log s1))
      /\ wasm s2 = InstanceExports (count is_new_instance (log s1))
      /\ count is_load (log s2) = S (count is_load (log s1))
      /\ count is_compile (log s2) = S (count is_compile (log s1))).
Proof.
  intros Hm Hgood. split.
  - intros e Ho Hc s1 s2.
    destruct (initAsync_load_failed H1 v s _ Ho Hc) as [Hm1 Hw1].
    fold s1 in Hm1, Hw1. rewrite Hm in Hm1.
    destruct (initAsync_fresh H2 v s1 Hgood Hm1) as (Ho2 & Hm2 & Hw2 & Hl2 & Hc2 & _).
    fold s2 in Hm2, Hw2, Hl2, Hc2. repeat split; assumption.
  - intros prop e s1 Hv Hw Hl s2.
    assert (Hs1 : mod_ s1 = None /\ wasm s1 = GuardProxy).
    { unfold loadModuleSync in Hl. rewrite Hm in Hl.
      destruct (readFileSync H1 _); [destruct (newModule H1 _ _)|];
        try discriminate; injection Hl as <- _; simpl; auto. }
    destruct Hs1 as [Hm1 Hw1].
    destruct (get_fresh H2 v s1 prop Hgood Hv Hw1 Hm1) as (Ho2 & Hm2 & Hw2 & Hl2 & Hc2 & _).
    fold s2 in Hm2, Hw2, Hl2, Hc2.
    repeat split; try assumption.
    unfold get. rewrite Hw, Hv, Hl. reflexivity.
Qed.

(** The file is missing at the first call and present at the second. *)
Lemma C4_failed_load_is_not_cached_witness :
  let s1 := fst (initAsync (offline_host false) NodeCjs init) in
  let s2 := fst (initAsync (good_host false) NodeCjs s1) in
  snd (initAsync (offline_host false) NodeCjs init)
  = Done (Throw (mkError "Error" "ENOENT: no such file or directory"))
  /\ mod_ s1 = None
  /\ snd (initAsync (good_host false) NodeCjs s1) = Done (Normal tt)
  /\ mod_ s2 = Some 0
  /\ wasm s2 = InstanceExports 0
  /\ count is_load (log s2) = 2.
Proof.
  intros s1 s2. split; [reflexivity|].
  destruct (C4_failed_load_is_not_cached (offline_host false) (good_host false)
              NodeCjs init eq_refl (good_host_succeeds false)) as [Hcall _].
  destruct (Hcall _ eq_refl eq_refl) as (Hm1 & _ & Ho & Hm2 & Hw2 & Hl2 & _).
  repeat split; assumption.
Defined.

(** ** C5 *)

(** C5, as stated, fails on the streaming path: on a host with
    [compileStreaming] whose server answers 404, [initAsync] is rejected
    with the engine's own error, whose message does not contain the URL of
    the module. *)
Lemma C5_streaming_error_lacks_url :
  let H := not_found_host true in
  (exists r, fetch H 0 = Normal r /\ ok r = false)
  /\ exists e,
      snd (initAsync H IndexCjs init) = Done (Throw e)
      /\ includes (moduleUrl H) (err_message e) = false.
Proof.
  split.
  - eexists. split; reflexivity.
  - eexists. split; [reflexivity|]. vm_compute. reflexivity.
Qed.

(** C5, amended: in the fetch entry points, when the response to the fetch
    of a call made while [mod] is unset is not [ok], then without
    [compileStreaming] the call is rejected with the error
    [Failed to fetch wasm module: <moduleUrl>], whose message contains the
    URL, and with [compileStreaming] it is rejected with whatever error the
    engine's streaming compile of that response rejects with, unchanged. *)
Theorem C5_non_success_status
  (H : Host) (v : variant) (s : state) (response : Response) :
  is_node v = false ->
  mod_ s = None ->
  fetch H (count is_fetch (log s)) = Normal response ->
  ok response = false ->
  (has_compileStreaming H = false ->
     snd (initAsync H v s) = Done (Throw (fetch_failed H))
     /\ includes (moduleUrl H) (err_message (fetch_failed H)) = true)
  /\ (has_compileStreaming H = true ->
      forall e,
        compileStreaming H (count is_compile (log s)) (Normal response) = Throw e ->
        snd (initAsync H v s) = Done (Throw e)).
Proof.
  intros Hv Hm Hf Hok. unfold initAsync, loadModule_call. rewrite Hm, Hv. split.
  - intros ->. cbn [settle resume]. rewrite Hf, Hok. cbn [settle resume]. split.
    + reflexivity.
    + apply includes_append.
  - intros -> e He. cbn [settle resume]. rewrite Hf. simpl in He |- *.
    rewrite He. reflexivity.
Qed.

(** A 404 on a host without [compileStreaming]. *)
Lemma C5_non_success_status_witness :
  snd (initAsync (not_found_host false) IndexEsm init)
  = Done (Throw (fetch_failed (not_found_host false)))
  /\ includes example_url (err_message (fetch_failed (not_found_host false))) = true.
Proof.
  destruct (C5_non_success_status (not_found_host false) IndexEsm init
              (mkResponse false (Normal [])) eq_refl eq_refl eq_refl eq_refl)
    as [Hbuffered _].
  exact (Hbuffered eq_refl).
Defined.

(** ** C6 *)

(** C6, as stated, fails: on a host with [compileStreaming] whose streaming
    compile is refused although the bytes are fine, [initAsync] is rejected
    and neither [arrayBuffer()] nor [WebAssembly.compile] is called, while
    the same host without [compileStreaming] gets the module compiled and
    the call resolved through the buffered path. *)
Lemma C6_no_fallback_after_streaming_failure :
  has_compileStreaming (wrong_mime_host true) = true
  /\ (exists e, snd (initAsync (wrong_mime_host true) IndexCjs init) = Done (Throw e))
  /\ count is_buffered (log (fst (initAsync (wrong_mime_host true) IndexCjs init))) = 0
  /\ snd (initAsync (wrong_mime_host false) IndexCjs init) = Done (Normal tt).
Proof.
  split; [reflexivity|]. split; [eexists; reflexivity|]. split; reflexivity.
Qed.

(** C6, amended: in the fetch entry points the buffered fetch-then-compile
    path is used exactly when the host lacks [compileStreaming]: on a host
    that has it, no run ever calls [arrayBuffer()] or [WebAssembly.compile]
    and every fetch is handed to [compileStreaming]; on a host that lacks
    it, no run calls [compileStreaming], and a call made while [mod] is
    unset whose response is [ok] and readable goes through [arrayBuffer()]
    and [WebAssembly.compile].  A call made while [mod] is unset whose
    streaming compile is rejected is itself rejected with that error,
    having issued one fetch and one streaming compile and nothing else. *)
Theorem C6_buffered_path_only_without_streaming
  (H : Host) (v : variant) (sched : list action) :
  is_node v = false ->
  let s := vars (run H v boot sched) in
  (if has_compileStreaming H
   then count is_buffered (log s) = 0
        /\ count is_streaming (log s) = count is_fetch (log s)
   else count is_streaming (log s) = 0)
  /\ (has_compileStreaming H = true ->
      forall s0 e,
        mod_ s0 = None ->
        compileStreaming H (count is_compile (log s0))
          (fetch H (count is_fetch (log s0))) = Throw e ->
        initAsync H v s0
        = (emit EvCompileStreaming (emit EvFetch s0), Done (Throw e)))
  /\ (has_compileStreaming H = false ->
      forall s0 response b,
        mod_ s0 = None ->
        fetch H (count is_fetch (log s0)) = Normal response ->
        ok response = true ->
        arrayBuffer response = Normal b ->
        count is_buffered (log (fst (initAsync H v s0)))
        = count is_buffered (log s0) + 2).
Proof.
  intros Hv s. split; [|split].
  - assert (Hinv : path_inv H (run H v boot sched)).
    { apply run_invariant.
      - intros P a. apply path_inv_step, Hv.
      - unfold path_inv. destruct (has_compileStreaming H); simpl; auto. }
    unfold path_inv in Hinv. fold s in Hinv.
    destruct (has_compileStreaming H); [destruct Hinv as (_ & Hb & Hs); auto | exact Hinv].
  - intros Hcs s0 e Hm He. unfold initAsync, loadModule_call.
    rewrite Hm, Hv, Hcs. cbn [settle resume]. simpl in He |- *. rewrite He.
    reflexivity.
  - intros Hcs s0 response b Hm Hf Hok Hb. unfold initAsync, loadModule_call.
    rewrite Hm, Hv, Hcs. cbn [settle resume]. rewrite Hf, Hok.
    cbn [settle resume]. rewrite Hb. cbn [settle resume].
    destruct (compile H _ b); unfold loadModule_finish; cbn [settle resume];
      [|simpl; lia].
    unfold initInstance. repeat case_match; simplify_eq; simpl; lia.
Qed.

(** Two overlapping calls whose streaming compiles are both refused. *)
Lemma C6_buffered_path_only_without_streaming_witness :
  let s := vars (run (wrong_mime_host true) IndexEsm boot
                   [CallInitAsync; CallInitAsync; Resume 1; Resume 0; Resume 1]) in
  count is_buffered (log s) = 0 /\ count is_streaming (log s) = count is_fetch (log s).
Proof.
  exact (proj1 (C6_buffered_path_only_without_streaming (wrong_mime_host true) IndexEsm
                  [CallInitAsync; CallInitAsync; Resume 1; Resume 0; Resume 1] eq_refl)).
Defined.

(** ** C7 *)

(** C7: in the Node entry points, on a host that answers every request,
    any number of property reads made on [wasm] before any call of
    [initAsync] trigger at most one read of the file, one compile, one
    instantiation and one start-up call in total (exactly one of each as
    soon as there is a read), and every read evaluates to the export of that
    one instance. *)
Theorem C7_auto_load_once
  (H : Host) (v : variant) (props : list string) :
  is_node v = true ->
  all_succeed H ->
  let s := fst (gets H v init props) in
  snd (gets H v init props) = map (fun prop => Normal (ExportMember 0 prop)) props
  /\ count is_load (log s) <= 1
  /\ count is_compile (log s) <= 1
  /\ count is_new_instance (log s) <= 1
  /\ count is_start (log s) <= 1
  /\ (props <> [] ->
      wasm s = InstanceExports 0
      /\ count is_load (log s) = 1
      /\ count is_compile (log s) = 1
      /\ count is_new_instance (log s) = 1
      /\ count is_start (log s) = 1).
Proof.
  intros Hv Hgood s. subst s. destruct props as [|prop props].
  - simpl. split; [reflexivity|]. repeat (split; [lia|]). congruence.
  - cbn [gets].
    destruct (get_fresh H v init prop Hgood Hv eq_refl eq_refl)
      as (Hr & Hm & Hw & Hl & Hc & Hi).
    assert (Hwf : log_inv (fst (get H v init prop))).
    { apply get_log_inv, log_inv_init. }
    destruct (get H v init prop) as [s1 r] eqn:Hg. simpl in *.
    rewrite (gets_bound H v props s1 0 Hw). simpl. subst r.
    destruct Hwf as [Hwf Hb]. destruct (wf_counts _ Hwf) as (Hs & _ & Hle).
    assert (Hlinked : count is_linked (log s1) <> 0).
    { intros Hz. apply (wf_guard_iff _ Hwf) in Hz. congruence. }
    repeat split; try lia; try assumption.
Qed.

(** Three reads in a row in [node.js]. *)
Lemma C7_auto_load_once_witness :
  let props := ["olmmachine_new"; "olmmachine_userId"; "olmmachine_deviceId"] in
  let s := fst (gets (good_host false) NodeCjs init props) in
  snd (gets (good_host false) NodeCjs init props)
  = map (fun prop => Normal (ExportMember 0 prop)) props
  /\ count is_load (log s) <= 1
  /\ count is_compile (log s) <= 1
  /\ count is_new_instance (log s) <= 1.
Proof.
  intros props s.
  destruct (C7_auto_load_once (good_host false) NodeCjs props eq_refl
              (good_host_succeeds false)) as (Hr & Hl & Hc & Hi & _).
  repeat split; assumption.
Defined.

(** ** C8 *)

(** C8: in every entry point, on every host and under every interleaving,
    each rebinding of [wasm] to an instance's exports comes right after the
    construction of that instance and right before the call of its
    [__wbindgen_start]; whenever other code can run, [wasm] is either the
    [Proxy] or the exports of an instance that was constructed and whose
    start-up export has been called, and no instance is constructed but not
    yet rebound or rebound but not yet started. *)
Theorem C8_rebind_between_construction_and_start
  (H : Host) (v : variant) (sched : list action) :
  let s := vars (run H v boot sched) in
  (forall before i after,
      trace s = before ++ EvSetWasm i :: after ->
      exists before' m after',
        before = before' ++ [EvNewInstance i m true]
        /\ after = EvStart i :: after')
  /\ (forall i, wasm s = InstanceExports i ->
        In (EvStart i) (trace s) /\ exists m, In (EvNewInstance i m true) (trace s))
  /\ count is_linked (log s) = count is_set_wasm (log s)
  /\ count is_set_wasm (log s) = count is_start (log s).
Proof.
  intros s. destruct (reachable_log_inv H v sched) as [Hwf Hb]. fold s in Hwf, Hb.
  split; [|split].
  - apply trace_rebind_neighbours, Hwf.
  - intros i Hi. rewrite Hb in Hi.
    destruct (wf_bound_started _ _ Hwf Hi) as [Hs [m Hm]]. unfold trace.
    split; [apply in_rev; rewrite rev_involutive; exact Hs|].
    exists m. apply in_rev. rewrite rev_involutive. exact Hm.
  - destruct (wf_counts _ Hwf) as (H1 & H2 & _). lia.
Qed.

(** ** C9 *)

(** C9: when the construction of the instance fails to link, the call that
    attempted it ends with that very error (the call of [initAsync] is
    rejected with it; in the Node entry points the property read throws it),
    one construction was attempted and none follows from that call, [wasm]
    and [mod] are what they were before, and nothing was rebound or
    started. *)
Theorem C9_link_error_propagates
  (H : Host) (v : variant) (P : process) (e : JsError) :
  (forall m, newInstance H (count is_new_instance (log (vars P))) m = Throw e) ->
  (forall t loaded m,
      tasks P !! t = Some (AwaitLoadModule (Normal loaded)) ->
      (if uses_loaded v then loaded else mod_ (vars P)) = Some m ->
      let P' := step H v P (Resume t) in
      outcome P' t = Some (Throw e)
      /\ wasm (vars P') = wasm (vars P)
      /\ mod_ (vars P') = mod_ (vars P)
      /\ log (vars P')
         = EvNewInstance (count is_new_instance (log (vars P))) (Some m) false
             :: log (vars P)
      /\ step H v P' (Resume t) = P')
  /\ (forall prop s1 r,
      is_node v = true ->
      wasm (vars P) = GuardProxy ->
      loadModuleSync H (vars P) = (s1, Normal r) ->
      let s' := fst (get H v (vars P) prop) in
      snd (get H v (vars P) prop) = Throw e
      /\ wasm s' = GuardProxy
      /\ mod_ s' = mod_ s1
      /\ log s'
         = EvNewInstance (count is_new_instance (log (vars P))) (mod_ s1) false
             :: log s1).
Proof.
  intros Hlink. split.
  - intros t loaded m Ht Hm P'. subst P'. unfold outcome.
    assert (Hlt : t < length (tasks P)) by (eapply lookup_lt_Some; exact Ht).
    cbn [step]. rewrite Ht. cbn [resume]. rewrite Hm.
    unfold initInstance. rewrite Hlink. cbn [tasks vars].
    rewrite list_lookup_insert_eq by exact Hlt.
    repeat split.
    cbn [resume]. rewrite list_insert_insert_eq. reflexivity.
  - intros prop s1 r Hv Hw Hl s'. subst s'. unfold get.
    rewrite Hw, Hv, Hl.
    destruct (loadModuleSync_normal H _ _ _ Hl) as ([m Hm] & Hw1 & Hc).
    unfold initInstance. rewrite Hm, Hc, Hlink. simpl.
    rewrite Hw1, Hw, Hm. repeat split.
Qed.

(** A call that loaded the module and then fails to link. *)
Lemma C9_link_error_propagates_witness :
  let P := run (unlinkable_host true) IndexCjs boot [CallInitAsync; Resume 0] in
  let P' := step (unlinkable_host true) IndexCjs P (Resume 0) in
  tasks P !! 0 = Some (AwaitLoadModule (Normal None))
  /\ outcome P' 0 = Some (Throw link_error)
  /\ wasm (vars P') = GuardProxy.
Proof.
  intros P P'. split; [reflexivity|].
  destruct (C9_link_error_propagates (unlinkable_host true) IndexCjs P link_error
              (fun _ => eq_refl)) as [Hcall _].
  destruct (Hcall 0 None 0 eq_refl eq_refl) as (Ho & Hw & _).
  split; [exact Ho | exact Hw].
Defined.

(** ** C10 *)

(** C10: once [mod] holds a compiled module, no later call of [initAsync]
    and no later property read (which in the Node entry points runs
    [loadModuleSync]) assigns it again, whatever the host answers, when the
    calls are made one after the other. *)
Theorem C10_mod_write_once
  (H : Host) (v : variant) (ops : list seq_op) (s : state) (m : wasm_module) :
  mod_ s = Some m -> mod_ (run_seq H v s ops) = Some m.
Proof.
  revert s. induction ops as [|o ops IH]; intros s Hm; simpl; [exact Hm|].
  apply IH. destruct o as [|prop]; simpl.
  - apply initAsync_mod, Hm.
  - apply get_mod, Hm.
Qed.

(** An auto-load followed by calls of [initAsync] and a read. *)
Lemma C10_mod_write_once_witness :
  let s := run_seq (good_host false) NodeCjs init [OpGet "olmmachine_new"] in
  mod_ s = Some 0
  /\ mod_ (run_seq (good_host false) NodeCjs s
             [OpInitAsync; OpGet "olmmachine_new"; OpInitAsync]) = Some 0.
Proof.
  split; [reflexivity|].
  apply (C10_mod_write_once (good_host false) NodeCjs
           [OpInitAsync; OpGet "olmmachine_new"; OpInitAsync]).
  reflexivity.
Defined.

(** * Further properties of the loader *)

(** ** The log only grows *)

Section Growth.

Variable H : Host.
Variable v : variant.

Lemma later_refl s : later s s.
Proof. split; [lia|]. split; [exists []; reflexivity | left; reflexivity]. Qed.

Lemma later_emit e s : later s (emit e s).
Proof.
  split; [simpl; lia|]. split; [exists [e]; reflexivity | left; reflexivity].
Qed.

Lemma later_trans s1 s2 s3 :
  (forall m, mod_ s2 = Some m -> m < count is_compile (log s2)) ->
  later s1 s2 -> later s2 s3 -> later s1 s3.
Proof.
  intros Hk (Hc1 & [n1 Hl1] & Hm1) (Hc2 & [n2 Hl2] & Hm2).
  split; [lia|]. split.
  - exists (n2 ++ n1). rewrite Hl2, Hl1, app_assoc. reflexivity.
  - destruct Hm2 as [Hm2|Hm2]; [|right; exact Hm2].
    destruct Hm1 as [Hm1|(k & Hk1 & Hlt)]; [left; congruence|].
    right. exists k. split; [congruence | lia].
Qed.

Lemma module_known_grow l l' m :
  count is_compile l <= count is_compile l' -> module_known l m -> module_known l' m.
Proof. intros Hc (k & -> & Hk). exists k. split; [reflexivity | lia]. Qed.

Lemma instantiates_known_other e l :
  is_new_instance e = false -> instantiates_known l -> instantiates_known (e :: l).
Proof.
  intros He Hl i m linked [->|Hin]; [discriminate|].
  apply (module_known_grow l); [simpl; lia | eapply Hl; exact Hin].
Qed.

Lemma instantiates_known_instance i m linked l :
  module_known l m -> instantiates_known l ->
  instantiates_known (EvNewInstance i m linked :: l).
Proof.
  intros Hm Hl i' m' linked' [Heq|Hin].
  - injection Heq as <- <- <-. apply (module_known_grow l); [simpl; lia | exact Hm].
  - apply (module_known_grow l); [simpl; lia | eapply Hl; exact Hin].
Qed.

Lemma vars_known_emit e s :
  is_new_instance e = false -> vars_known s -> vars_known (emit e s).
Proof.
  intros He [Hm Hi]. split.
  - intros m Hs. specialize (Hm m Hs). simpl. lia.
  - apply instantiates_known_other; assumption.
Qed.

(** What [initInstance] adds to the log. *)
Lemma initInstance_log m s :
  mod_ (fst (initInstance H m s)) = mod_ s
  /\ (log (fst (initInstance H m s))
      = EvNewInstance (count is_new_instance (log s)) m false :: log s
      \/ log (fst (initInstance H m s))
         = EvStart (count is_new_instance (log s))
             :: EvSetWasm (count is_new_instance (log s))
             :: EvNewInstance (count is_new_instance (log s)) m true :: log s).
Proof. unfold initInstance. repeat case_match; simpl; auto. Qed.

Lemma initInstance_known m s :
  vars_known s -> module_known (log s) m ->
  vars_known (fst (initInstance H m s)) /\ later s (fst (initInstance H m s)).
Proof.
  intros [Hm Hi] Hk. destruct (initInstance_log m s) as [Hmod Hlog].
  assert (Hc : count is_compile (log (fst (initInstance H m s)))
               = count is_compile (log s)).
  { destruct Hlog as [->| ->]; reflexivity. }
  split; [split|split; [|split]].
  - intros m'. rewrite Hmod, Hc. apply Hm.
  - destruct Hlog as [->| ->].
    + apply instantiates_known_instance; assumption.
    + repeat (apply instantiates_known_other; [reflexivity|]).
      apply instantiates_known_instance; assumption.
  - lia.
  - destruct Hlog as [->| ->]; [exists [EvNewInstance (count is_new_instance (log s)) m false]
                               | eexists [_; _; _]]; reflexivity.
  - left. exact Hmod.
Qed.

Lemma loadModuleSync_known s :
  vars_known s ->
  vars_known (fst (loadModuleSync H s)) /\ later s (fst (loadModuleSync H s))
  /\ (forall r, snd (loadModuleSync H s) = Normal r ->
      module_known (log (fst (loadModuleSync H s))) (mod_ (fst (loadModuleSync H s)))).
Proof.
  intros Hs. unfold loadModuleSync. destruct (mod_ s) as [m|] eqn:Hm.
  - split; [exact Hs|]. split; [apply later_refl|].
    intros _ _. exists m. split; [exact Hm | apply Hs, Hm].
  - destruct (readFileSync H _) as [b|e]; cbn [fst snd].
    + destruct (newModule H _ b) as [u|e]; cbn [fst snd].
      * split; [|split].
        -- destruct Hs as [_ Hi]. split.
           ++ simpl. intros m' [= <-]. lia.
           ++ simpl. repeat (apply instantiates_known_other; [reflexivity|]). exact Hi.
        -- split; [simpl; lia|]. split; [exists [EvNewModule; EvReadFileSync]; reflexivity|].
           right. eexists. split; [reflexivity | simpl; lia].
        -- intros _ _. eexists. split; [reflexivity | simpl; lia].
      * split; [repeat apply vars_known_emit; auto|]. split; [|discriminate].
        split; [simpl; lia|]. split; [exists [EvNewModule; EvReadFileSync]; reflexivity|].
        left. reflexivity.
    + split; [apply vars_known_emit; auto|]. split; [apply later_emit | discriminate].
Qed.

Lemma get_known s prop :
  vars_known s -> vars_known (fst (get H v s prop)) /\ later s (fst (get H v s prop)).
Proof.
  intros Hs. unfold get. destruct (wasm s); [|split; [exact Hs | apply later_refl]].
  destruct (is_node v); [|split; [exact Hs | apply later_refl]].
  destruct (loadModuleSync_known s Hs) as (Hk1 & Hl1 & Hm1).
  destruct (loadModuleSync H s) as [s1 [r|e]]; cbn [fst snd] in *; [|split; assumption].
  destruct (initInstance_known (mod_ s1) s1 Hk1 (Hm1 r eq_refl)) as [Hk2 Hl2].
  destruct (initInstance H (mod_ s1) s1) as [s2 [i|e]]; cbn [fst] in *;
    (split; [exact Hk2|]; eapply later_trans; [apply Hk1 | exact Hl1 | exact Hl2]).
Qed.

Lemma loadModule_call_known s :
  vars_known s ->
  vars_known (fst (loadModule_call H v s))
  /\ later s (fst (loadModule_call H v s))
  /\ call_known v (fst (loadModule_call H v s)) (snd (loadModule_call H v s)).
Proof.
  intros Hs. unfold loadModule_call. destruct (mod_ s) as [m|] eqn:Hm.
  - split; [exact Hs|]. split; [apply later_refl|]. simpl.
    exists m. split; [destruct (uses_loaded v); [reflexivity | exact Hm] | apply Hs, Hm].
  - destruct (is_node v); [|destruct (has_compileStreaming H)]; cbn [fst snd].
    + split; [apply vars_known_emit; auto|]. split; [apply later_emit | exact I].
    + split; [repeat apply vars_known_emit; auto|]. split; [|simpl; lia].
      split; [simpl; lia|]. split; [exists [EvCompileStreaming; EvFetch]; reflexivity|].
      left. reflexivity.
    + split; [apply vars_known_emit; auto|]. split; [apply later_emit | exact I].
Qed.

Lemma resume_known s p :
  vars_known s -> call_known v s p ->
  vars_known (fst (resume H v s p))
  /\ later s (fst (resume H v s p))
  /\ call_known v (fst (resume H v s p)) (snd (resume H v s p)).
Proof.
  intros Hs Hp.
  assert (Hfinish : forall k, k < count is_compile (log s) ->
            vars_known (set_mod k s) /\ later s (set_mod k s)
            /\ call_known v (set_mod k s) (AwaitLoadModule (Normal (loadModule_ret v k)))).
  { intros k Hk. split; [|split].
    - split; [simpl; intros m [= <-]; exact Hk | apply Hs].
    - split; [simpl; lia|]. split; [exists []; reflexivity|].
      right. exists k. split; [reflexivity | exact Hk].
    - simpl. exists k. unfold loadModule_ret.
      split; [destruct (uses_loaded v); reflexivity | exact Hk]. }
  assert (Hsame : forall q, call_known v s q ->
            vars_known s /\ later s s /\ call_known v s q).
  { intros q Hq. split; [exact Hs|]. split; [apply later_refl | exact Hq]. }
  destruct p as [k n|n|r|k b|n|[loaded|e]|r]; cbn [resume].
  - destruct (compileStreaming H k _); [apply Hfinish, Hp | apply Hsame; exact I].
  - destruct (fetch H n) as [r|e]; [destruct (ok r)|]; cbn [fst snd];
      try (apply Hsame; exact I).
    split; [apply vars_known_emit; auto|]. split; [apply later_emit | exact I].
  - destruct (arrayBuffer r); [|apply Hsame; exact I]. cbn [fst snd].
    split; [apply vars_known_emit; auto|]. split; [apply later_emit | simpl; lia].
  - destruct (compile H k b); [apply Hfinish, Hp | apply Hsame; exact I].
  - destruct (readFile H n); [|apply Hsame; exact I]. cbn [fst snd].
    split; [apply vars_known_emit; auto|]. split; [apply later_emit | simpl; lia].
  - simpl in Hp.
    destruct (initInstance_known _ s Hs Hp) as [Hk Hl].
    destruct (initInstance H _ s) as [s' [i|e']]; cbn [fst snd] in *;
      (split; [exact Hk|]; split; [exact Hl | exact I]).
  - apply Hsame. exact I.
  - apply Hsame. exact I.
Qed.

Lemma call_known_later s s' p :
  later s s' -> call_known v s p -> call_known v s' p.
Proof.
  intros (Hc & _ & Hm) Hp.
  destruct p as [k n|n|r|k b|n|[loaded|e]|r]; simpl in *; try exact I; try lia.
  destruct (uses_loaded v); [eapply module_known_grow; eassumption|].
  destruct Hm as [->|(k & -> & Hk)]; [eapply module_known_grow; eassumption|].
  exists k. split; [reflexivity | exact Hk].
Qed.

Lemma step_known P a :
  modules_inv v P ->
  modules_inv v (step H v P a) /\ later (vars P) (vars (step H v P a)).
Proof.
  intros [Hs Ht]. destruct a as [|t|prop]; cbn [step].
  - destruct (loadModule_call_known _ Hs) as (Hk & Hl & Hp).
    destruct (loadModule_call H v (vars P)) as [s1 p]. cbn [fst snd vars tasks] in *.
    split; [split; [exact Hk|] | exact Hl].
    apply Forall_app. split; [|constructor; [exact Hp | constructor]].
    eapply Forall_impl; [exact Ht|]. intros q. apply call_known_later, Hl.
  - destruct (tasks P !! t) as [p|] eqn:Hp; [|split; [split; assumption | apply later_refl]].
    assert (Hkp : call_known v (vars P) p).
    { rewrite Forall_forall in Ht. apply Ht. eapply list_elem_of_lookup_2. exact Hp. }
    destruct (resume_known _ _ Hs Hkp) as (Hk & Hl & Hp').
    destruct (resume H v (vars P) p) as [s1 p']. cbn [fst snd vars tasks] in *.
    split; [split; [exact Hk|] | exact Hl].
    apply Forall_insert; [|exact Hp'].
    eapply Forall_impl; [exact Ht|]. intros q. apply call_known_later, Hl.
  - destruct (get_known _ prop Hs) as [Hk Hl]. cbn [vars tasks].
    split; [split; [exact Hk|] | exact Hl].
    eapply Forall_impl; [exact Ht|]. intros q. apply call_known_later, Hl.
Qed.

Lemma run_known sched : forall P,
  modules_inv v P ->
  modules_inv v (run H v P sched) /\ later (vars P) (vars (run H v P sched)).
Proof.
  induction sched as [|a sched IH]; intros P HP; simpl.
  - split; [exact HP | apply later_refl].
  - destruct (step_known P a HP) as [H1 L1].
    destruct (IH _ H1) as [H2 L2]. split; [exact H2|].
    eapply later_trans; [apply H1 | exact L1 | exact L2].
Qed.

Lemma modules_inv_boot : modules_inv v boot.
Proof.
  split; [split|constructor].
  - discriminate.
  - intros i m linked [].
Qed.

End Growth.

(** ** The binding of [wasm] over a run *)

Lemma linked_in_count i m l : In (EvNewInstance i m true) l -> 0 < count is_linked l.
Proof.
  induction l as [|e l IH]; intros Hin; [contradiction|].
  destruct Hin as [->|Hin]; simpl; [lia|]. specialize (IH Hin). lia.
Qed.

Lemma count_linked_in l : 0 < count is_linked l -> exists i m, In (EvNewInstance i m true) l.
Proof.
  induction l as [|e l IH]; simpl; intros Hc; [lia|].
  destruct e; simpl in Hc;
    try (destruct (IH Hc) as (i' & m' & Hin); exists i', m'; right; exact Hin).
  destruct linked.
  - exists i, m. left. reflexivity.
  - destruct (IH Hc) as (i' & m' & Hin). exists i', m'. right. exact Hin.
Qed.

(** In a well-formed log no linked instance is newer than the one [wasm]
    was last bound to. *)
Lemma wf_bound_latest l i :
  wf_log l -> bound_by l = InstanceExports i ->
  forall j m, In (EvNewInstance j m true) l -> j <= i.
Proof.
  induction 1 as [|e l He Hwf IH|m0 l Hwf IH|m0 l Hwf IH]; intros Hb j m Hin.
  - contradiction.
  - rewrite bound_by_other in Hb by exact He.
    destruct Hin as [->|Hin]; [discriminate|]. eapply IH; eassumption.
  - simpl in Hb. destruct Hin as [Heq|Hin]; [discriminate|]. eapply IH; eassumption.
  - simpl in Hb. injection Hb as <-.
    destruct Hin as [Heq|[Heq|[Heq|Hin]]]; try discriminate.
    + injection Heq as <- _. lia.
    + pose proof (wf_instance_lt l Hwf _ j Hin eq_refl). lia.
Qed.

(** X1: once [wasm] is bound to the exports of an instance it is never the
    [Proxy] again, on any host and under any continuation of the run; it is
    only ever rebound to a later instance. *)
Theorem wasm_never_reverts
  (H : Host) (v : variant) (sched sched' : list action) (i : nat) :
  wasm (vars (run H v boot sched)) = InstanceExports i ->
  exists j,
    wasm (vars (run H v boot (sched ++ sched'))) = InstanceExports j /\ i <= j.
Proof.
  intros Hw.
  destruct (reachable_log_inv H v sched) as [Hwf Hb].
  destruct (reachable_log_inv H v (sched ++ sched')) as [Hwf' Hb'].
  rewrite Hb in Hw. destruct (wf_bound_started _ _ Hwf Hw) as [_ [m Hin]].
  destruct (run_known H v sched boot (modules_inv_boot v)) as [Hinv _].
  destruct (run_known H v sched' _ Hinv) as [_ (_ & [newer Hl] & _)].
  rewrite <- run_app in Hl.
  assert (Hin' : In (EvNewInstance i m true) (log (vars (run H v boot (sched ++ sched'))))).
  { rewrite Hl. apply in_or_app. right. exact Hin. }
  destruct (wasm (vars (run H v boot (sched ++ sched')))) as [|j] eqn:Hw'.
  - symmetry in Hb'. apply (wf_guard_iff _ Hwf') in Hb'.
    pose proof (linked_in_count _ _ _ Hin'). lia.
  - exists j. split; [reflexivity|].
    symmetry in Hb'. eapply wf_bound_latest; eassumption.
Qed.

(** After an auto-load in [node.js], two overlapping calls of
    [initAsync]. *)
Lemma wasm_never_reverts_witness :
  exists j,
    wasm (vars (run (good_host false) NodeCjs boot
                  ([Get "olmmachine_new"] ++ [CallInitAsync; CallInitAsync; Resume 1])))
    = InstanceExports j
    /\ 0 <= j.
Proof.
  apply (wasm_never_reverts (good_host false) NodeCjs [Get "olmmachine_new"]
           [CallInitAsync; CallInitAsync; Resume 1] 0).
  reflexivity.
Defined.

(** X2: in every state of every run, [wasm] is the [Proxy] exactly while
    no instance has linked, and otherwise holds the exports of the linked
    instance constructed last: a later instantiation always takes the
    binding over, an earlier one never gets it back. *)
Theorem wasm_is_latest_linked_instance
  (H : Host) (v : variant) (sched : list action) :
  let s := vars (run H v boot sched) in
  match wasm s with
  | GuardProxy => forall j m, ~ In (EvNewInstance j m true) (log s)
  | InstanceExports i =>
      (exists m, In (EvNewInstance i m true) (log s))
      /\ forall j m, In (EvNewInstance j m true) (log s) -> j <= i
  end.
Proof.
  intros s. destruct (reachable_log_inv H v sched) as [Hwf Hb]. fold s in Hwf, Hb.
  destruct (wasm s) as [|i].
  - intros j m Hin. symmetry in Hb. apply (wf_guard_iff _ Hwf) in Hb.
    pose proof (linked_in_count _ _ _ Hin). lia.
  - symmetry in Hb. split.
    + apply (wf_bound_started _ _ Hwf Hb).
    + apply (wf_bound_latest _ _ Hwf Hb).
Qed.

(** ** The module that is instantiated *)

(** X3: [new WebAssembly.Instance] is never called with an undefined
    module: on any host and under any interleaving, every instantiation is
    given a module that a compile request of the run produced. *)
Theorem instantiates_compiled_module
  (H : Host) (v : variant) (sched : list action)
  (i : nat) (m : option wasm_module) (linked : bool) :
  In (EvNewInstance i m linked) (log (vars (run H v boot sched))) ->
  exists k, m = Some k /\ k < count is_compile (log (vars (run H v boot sched))).
Proof.
  intros Hin.
  destruct (run_known H v sched boot (modules_inv_boot v)) as [[[_ Hi] _] _].
  exact (Hi i m linked Hin).
Qed.

(** Two overlapping calls in [index.js]: both compiles settle, then the
    first call instantiates the module the second one assigned. *)
Lemma instantiates_compiled_module_witness :
  exists k,
    Some 1 = Some k
    /\ k < count is_compile
             (log (vars (run (good_host true) IndexCjs boot
                           [CallInitAsync; CallInitAsync; Resume 0; Resume 1; Resume 0]))).
Proof.
  apply (instantiates_compiled_module (good_host true) IndexCjs
           [CallInitAsync; CallInitAsync; Resume 0; Resume 1; Resume 0] 0 (Some 1) true).
  simpl. right. right. left. reflexivity.
Defined.

(** X4: under any interleaving and on any host, once [mod] is assigned it
    is never undefined again (overlapping calls may assign it again), and
    what it holds is always a module that a compile request of the run
    produced. *)
Theorem mod_never_unset
  (H : Host) (v : variant) (sched sched' : list action) (m : wasm_module) :
  mod_ (vars (run H v boot sched)) = Some m ->
  m < count is_compile (log (vars (run H v boot sched)))
  /\ exists m',
      mod_ (vars (run H v boot (sched ++ sched'))) = Some m'
      /\ m' < count is_compile (log (vars (run H v boot (sched ++ sched')))).
Proof.
  intros Hm.
  destruct (run_known H v sched boot (modules_inv_boot v)) as [Hinv _].
  destruct (run_known H v sched' _ Hinv) as [[[Hk' _] _] (_ & _ & Hmod)].
  rewrite <- run_app in Hk', Hmod.
  split; [apply Hinv, Hm|].
  destruct Hmod as [Heq|(k & Hk & Hlt)].
  - exists m. rewrite Heq. split; [exact Hm|]. apply Hk'. congruence.
  - exists k. split; assumption.
Qed.

(** The second of two overlapping calls settles first, then the first. *)
Lemma mod_never_unset_witness :
  1 < count is_compile
        (log (vars (run (good_host true) IndexCjs boot
                      [CallInitAsync; CallInitAsync; Resume 1])))
  /\ exists m',
      mod_ (vars (run (good_host true) IndexCjs boot
                    ([CallInitAsync; CallInitAsync; Resume 1] ++ [Resume 0])))
      = Some m'
      /\ m' < count is_compile
                (log (vars (run (good_host true) IndexCjs boot
                              ([CallInitAsync; CallInitAsync; Resume 1] ++ [Resume 0])))).
Proof.
  apply (mod_never_unset (good_host true) IndexCjs
           [CallInitAsync; CallInitAsync; Resume 1] [Resume 0] 1).
  reflexivity.
Defined.

(** ** Settlement of a call *)

Section Settlement.

Variable H : Host.
Variable v : variant.

Lemma rank_le_4 (p : pc) : rank p <= 4.
Proof. destruct p; simpl; lia. Qed.

Lemma rank_0_done (p : pc) : rank p = 0 -> exists r, p = Done r.
Proof. destruct p; simpl; try discriminate. eauto. Qed.

(** A step moves call [t] only if it is a settlement of [t], and then
    towards [Done]. *)
Lemma step_rank P a t p :
  tasks P !! t = Some p ->
  exists p',
    tasks (step H v P a) !! t = Some p'
    /\ rank p' <= rank p - b2n (is_resume_of t a)
    /\ (forall r, p = Done r -> p' = Done r).
Proof.
  intros Hp. assert (Hlt : t < length (tasks P)) by (eapply lookup_lt_Some; exact Hp).
  destruct a as [|t'|prop]; cbn [step is_resume_of b2n].
  - destruct (loadModule_call H v (vars P)) as [s1 q]. cbn [tasks].
    exists p. rewrite lookup_app_l by exact Hlt. split; [exact Hp|]. split; [lia | auto].
  - destruct (Nat.eqb_spec t t') as [<-|Hne].
    + rewrite Hp. pose proof (resume_rank H v (vars P) p) as Hr.
      assert (Hd : forall r, p = Done r -> snd (resume H v (vars P) p) = Done r).
      { intros r ->. reflexivity. }
      destruct (resume H v (vars P) p) as [s1 p']. cbn [tasks snd] in *.
      exists p'. rewrite list_lookup_insert_eq by exact Hlt.
      split; [reflexivity|]. split; [simpl; lia | exact Hd].
    + cbn [b2n].
      destruct (tasks P !! t') as [q|]; [|exists p; split; [exact Hp|]; split; [lia | auto]].
      destruct (resume H v (vars P) q) as [s1 q']. cbn [tasks].
      exists p. rewrite list_lookup_insert_ne by congruence.
      split; [exact Hp|]. split; [lia | auto].
  - exists p. split; [exact Hp|]. split; [lia | auto].
Qed.

Lemma run_rank sched : forall P t p,
  tasks P !! t = Some p ->
  exists p',
    tasks (run H v P sched) !! t = Some p'
    /\ rank p' <= rank p - resumes_of t sched
    /\ (forall r, p = Done r -> p' = Done r).
Proof.
  unfold resumes_of.
  induction sched as [|a sched IH]; intros P t p Hp; simpl.
  - exists p. split; [exact Hp|]. split; [lia | auto].
  - destruct (step_rank P a t p Hp) as (p1 & Hp1 & Hr1 & Hd1).
    destruct (IH _ _ _ Hp1) as (p2 & Hp2 & Hr2 & Hd2).
    exists p2. split; [exact Hp2|]. split.
    + unfold b2n in Hr1. destruct (is_resume_of t a); simpl; lia.
    + intros r Hr. apply Hd2, Hd1, Hr.
Qed.

End Settlement.

(** X6: a call of [initAsync] needs at most four settlements of its own
    awaited promises to settle, whatever the host answers and whatever else
    is interleaved with them: no call waits on another call. *)
Theorem call_settles_within_four
  (H : Host) (v : variant) (P : process) (sched : list action) (t : nat) (p : pc) :
  tasks P !! t = Some p ->
  4 <= resumes_of t sched ->
  exists r, outcome (run H v P sched) t = Some r.
Proof.
  intros Hp Hn. destruct (run_rank H v sched P t p Hp) as (p' & Hp' & Hr & _).
  pose proof (rank_le_4 p).
  destruct (rank_0_done p') as [r ->]; [lia|].
  exists r. unfold outcome. rewrite Hp'. reflexivity.
Qed.

(** The buffered path of [index.js], interleaved with a second call. *)
Lemma call_settles_within_four_witness :
  exists r,
    outcome (run (good_host false) IndexCjs
               (run (good_host false) IndexCjs boot [CallInitAsync])
               [Resume 0; CallInitAsync; Resume 0; Resume 1; Resume 0; Resume 0]) 0
    = Some r.
Proof.
  apply (call_settles_within_four (good_host false) IndexCjs
           (run (good_host false) IndexCjs boot [CallInitAsync])
           [Resume 0; CallInitAsync; Resume 0; Resume 1; Resume 0; Resume 0]
           0 (AwaitFetch 0)).
  - reflexivity.
  - vm_compute. lia.
Defined.

(** ** Property reads in the fetch entry points *)

(** X7: in the fetch entry points a property read has no effect on the
    loader: a run with reads anywhere in it ends in the same state, with the
    same calls in the same places, as the run without them. *)
Theorem reads_do_not_disturb_fetch_entry_points
  (H : Host) (v : variant) (sched : list action) (P : process) :
  is_node v = false ->
  run H v P sched = run H v P (without_reads sched).
Proof.
  intros Hv. revert P. induction sched as [|a sched IH]; intros P; [reflexivity|].
  destruct a as [|t|prop]; simpl; try apply IH.
  rewrite get_fetch_variant by exact Hv.
  replace {| vars := vars P; tasks := tasks P |} with P by (destruct P; reflexivity).
  apply IH.
Qed.

(** Reads before, during and after a call in the ESM entry point. *)
Lemma reads_do_not_disturb_fetch_entry_points_witness :
  run (good_host true) IndexEsm boot
    [Get "olmmachine_new"; CallInitAsync; Get "olmmachine_new"; Resume 0; Resume 0;
     Get "olmmachine_new"]
  = run (good_host true) IndexEsm boot [CallInitAsync; Resume 0; Resume 0].
Proof.
  apply (reads_do_not_disturb_fetch_entry_points (good_host true) IndexEsm
           [Get "olmmachine_new"; CallInitAsync; Get "olmmachine_new"; Resume 0; Resume 0;
            Get "olmmachine_new"] boot).
  reflexivity.
Defined.

(** ** A call made when the module is cached *)

(** X8: a call of [initAsync] made when [mod] holds a module neither
    fetches, reads nor compiles, and leaves [mod] as it is; it instantiates
    that very module, once, in every entry point and on every host. *)
Theorem initAsync_with_cached_module
  (H : Host) (v : variant) (s : state) (m : wasm_module) :
  mod_ s = Some m ->
  let s' := fst (initAsync H v s) in
  mod_ s' = Some m
  /\ count is_load (log s') = count is_load (log s)
  /\ count is_compile (log s') = count is_compile (log s)
  /\ count is_new_instance (log s') = S (count is_new_instance (log s))
  /\ exists linked newer,
      log s' = newer ++ EvNewInstance (count is_new_instance (log s)) (Some m) linked
                          :: log s.
Proof.
  intros Hm s'. subst s'. unfold initAsync, loadModule_call. rewrite Hm.
  change (settle H v 4 s (AwaitLoadModule (Normal (Some m))))
    with (let (s1, p1) := resume H v s (AwaitLoadModule (Normal (Some m))) in
          settle H v 3 s1 p1).
  cbn [resume].
  assert (Harg : (if uses_loaded v then Some m else mod_ s) = Some m)
    by (destruct (uses_loaded v); [reflexivity | exact Hm]).
  rewrite Harg.
  destruct (initInstance_log H (Some m) s) as [Hmod Hlog].
  destruct (initInstance H (Some m) s) as [s1 [i|e]]; cbn [fst] in *;
    rewrite settle_Done; cbn [fst];
    (split; [congruence|]);
    (destruct Hlog as [->| ->]; simpl;
     repeat (split; [reflexivity|]);
     [exists false, [] | exists true; eexists [_; _]]; reflexivity).
Qed.

(** A second call in [node.js] after the first one resolved. *)
Lemma initAsync_with_cached_module_witness :
  let s := fst (initAsync (good_host false) NodeCjs init) in
  let s' := fst (initAsync (good_host false) NodeCjs s) in
  mod_ s' = Some 0
  /\ count is_load (log s') = count is_load (log s)
  /\ count is_compile (log s') = count is_compile (log s)
  /\ count is_new_instance (log s') = S (count is_new_instance (log s))
  /\ exists linked newer,
      log s' = newer ++ EvNewInstance (count is_new_instance (log s)) (Some 0) linked
                          :: log s.
Proof.
  apply (initAsync_with_cached_module (good_host false) NodeCjs
           (fst (initAsync (good_host false) NodeCjs init)) 0).
  reflexivity.
Defined.

(** ** A start-up export that throws *)

(** X9: when the instance links but its [__wbindgen_start] throws, the
    call ends with that error (the call of [initAsync] is rejected with it;
    in the Node entry points the property read throws it), yet [wasm] is
    already bound to the new instance, and every property read from then on
    is served by it. *)
Theorem start_failure_leaves_instance_bound
  (H : Host) (v : variant) (P : process) (e : JsError) :
  wbindgen_start H (count is_new_instance (log (vars P))) = Throw e ->
  (forall t loaded m u,
      tasks P !! t = Some (AwaitLoadModule (Normal loaded)) ->
      (if uses_loaded v then loaded else mod_ (vars P)) = Some m ->
      newInstance H (count is_new_instance (log (vars P))) m = Normal u ->
      let P' := step H v P (Resume t) in
      outcome P' t = Some (Throw e)
      /\ wasm (vars P') = InstanceExports (count is_new_instance (log (vars P)))
      /\ forall prop,
          get H v (vars P') prop
          = (vars P', Normal (ExportMember (count is_new_instance (log (vars P))) prop)))
  /\ (forall prop s1 r m u,
      is_node v = true ->
      wasm (vars P) = GuardProxy ->
      loadModuleSync H (vars P) = (s1, Normal r) ->
      mod_ s1 = Some m ->
      newInstance H (count is_new_instance (log (vars P))) m = Normal u ->
      let s' := fst (get H v (vars P) prop) in
      snd (get H v (vars P) prop) = Throw e
      /\ wasm s' = InstanceExports (count is_new_instance (log (vars P)))
      /\ forall prop',
          get H v s' prop'
          = (s', Normal (ExportMember (count is_new_instance (log (vars P))) prop'))).
Proof.
  intros Hstart. split.
  - intros t loaded m u Ht Hm Hlink P'. subst P'. unfold outcome.
    assert (Hlt : t < length (tasks P)) by (eapply lookup_lt_Some; exact Ht).
    cbn [step]. rewrite Ht. cbn [resume]. rewrite Hm.
    unfold initInstance. rewrite Hlink, Hstart. cbn [tasks vars].
    rewrite list_lookup_insert_eq by exact Hlt.
    split; [reflexivity|]. split; [reflexivity|].
    intros prop. apply get_bound. reflexivity.
  - intros prop s1 r m u Hv Hw Hl Hm Hlink s'. subst s'.
    destruct (loadModuleSync_normal H _ _ _ Hl) as (_ & _ & Hc).
    assert (Hg : exists s2,
               get H v (vars P) prop = (s2, Throw e)
               /\ wasm s2 = InstanceExports (count is_new_instance (log (vars P)))).
    { unfold get. rewrite Hw, Hv, Hl.
      unfold initInstance. rewrite Hm, Hc, Hlink, Hstart.
      eexists. split; reflexivity. }
    destruct Hg as (s2 & -> & Hw2). cbn [fst snd].
    split; [reflexivity|]. split; [exact Hw2|].
    intros prop'. apply get_bound, Hw2.
Qed.

(** The binary links and its start-up export traps, in [index.js]. *)
Lemma start_failure_leaves_instance_bound_witness :
  let P := run (failing_start_host true) IndexCjs boot [CallInitAsync; Resume 0] in
  let P' := step (failing_start_host true) IndexCjs P (Resume 0) in
  outcome P' 0 = Some (Throw (mkError "RuntimeError" "unreachable"))
  /\ wasm (vars P') = InstanceExports 0
  /\ forall prop,
      get (failing_start_host true) IndexCjs (vars P') prop
      = (vars P', Normal (ExportMember 0 prop)).
Proof.
  intros P P'.
  destruct (start_failure_leaves_instance_bound (failing_start_host true) IndexCjs P
              (mkError "RuntimeError" "unreachable") eq_refl) as [Hcall _].
  exact (Hcall 0 None 0 tt eq_refl eq_refl eq_refl).
Defined.

(** ** Errors of the load *)

(** X10: outside the streaming path, a call of [initAsync] made while [mod]
    is unset is rejected with exactly the error of the first request that
    fails (the read or the compile in the Node entry points; the fetch, the
    [arrayBuffer()] or the compile on the buffered path), and nothing is
    requested after the failure: no later step of the load, no
    instantiation. *)
Theorem load_errors_reject_initAsync
  (H : Host) (v : variant) (s : state) (e : JsError) :
  mod_ s = None ->
  (is_node v = true ->
     (readFile H (count is_read_file (log s)) = Throw e ->
        initAsync H v s = (emit EvReadFile s, Done (Throw e)))
     /\ (forall b,
          readFile H (count is_read_file (log s)) = Normal b ->
          compile H (count is_compile (log s)) b = Throw e ->
          initAsync H v s = (emit EvCompile (emit EvReadFile s), Done (Throw e))))
  /\ (is_node v = false -> has_compileStreaming H = false ->
      (fetch H (count is_fetch (log s)) = Throw e ->
         initAsync H v s = (emit EvFetch s, Done (Throw e)))
      /\ (forall response,
           fetch H (count is_fetch (log s)) = Normal response ->
           ok response = true ->
           arrayBuffer response = Throw e ->
           initAsync H v s = (emit EvArrayBuffer (emit EvFetch s), Done (Throw e)))
      /\ (forall response b,
           fetch H (count is_fetch (log s)) = Normal response ->
           ok response = true ->
           arrayBuffer response = Normal b ->
           compile H (count is_compile (log s)) b = Throw e ->
           initAsync H v s
           = (emit EvCompile (emit EvArrayBuffer (emit EvFetch s)), Done (Throw e)))).
Proof.
  intros Hm. unfold initAsync, loadModule_call. rewrite Hm. split.
  - intros ->. split.
    + intros Hr. cbn [settle resume]. rewrite Hr. reflexivity.
    + intros b Hr Hc. cbn [settle resume]. rewrite Hr. cbn [settle resume].
      simpl in Hc |- *. rewrite Hc. reflexivity.
  - intros -> ->. split; [|split].
    + intros Hf. cbn [settle resume]. rewrite Hf. reflexivity.
    + intros r Hf Hok Hb. cbn [settle resume]. rewrite Hf, Hok.
      cbn [settle resume]. rewrite Hb. reflexivity.
    + intros r b Hf Hok Hb Hc. cbn [settle resume]. rewrite Hf, Hok.
      cbn [settle resume]. rewrite Hb. cbn [settle resume].
      simpl in Hc |- *. rewrite Hc. reflexivity.
Qed.

(** The file is missing in [node.js]. *)
Lemma load_errors_reject_initAsync_witness :
  initAsync (offline_host false) NodeCjs init
  = (emit EvReadFile init,
     Done (Throw (mkError "Error" "ENOENT: no such file or directory"))).
Proof.
  destruct (load_errors_reject_initAsync (offline_host false) NodeCjs init
              (mkError "Error" "ENOENT: no such file or directory") eq_refl)
    as [Hnode _].
  destruct (Hnode eq_refl) as [Hread _].
  exact (Hread eq_refl).
Defined.

(** X11: in the Node entry points, a property read made while the [Proxy]
    is installed and [mod] is unset throws exactly the error of
    [readFileSync], or of [new WebAssembly.Module] when the read succeeded,
    and in both cases nothing was instantiated and the [Proxy] stays. *)
Theorem auto_load_errors_throw_from_read
  (H : Host) (v : variant) (s : state) (prop : string) (e : JsError) :
  is_node v = true ->
  wasm s = GuardProxy ->
  mod_ s = None ->
  (readFileSync H (count is_read_file_sync (log s)) = Throw e ->
     get H v s prop = (emit EvReadFileSync s, Throw e))
  /\ (forall b,
       readFileSync H (count is_read_file_sync (log s)) = Normal b ->
       newModule H (count is_compile (log s)) b = Throw e ->
       get H v s prop = (emit EvNewModule (emit EvReadFileSync s), Throw e)).
Proof.
  intros Hv Hw Hm. unfold get, loadModuleSync. rewrite Hw, Hv, Hm. split.
  - intros ->. reflexivity.
  - intros b -> Hn. simpl in Hn |- *. rewrite Hn. reflexivity.
Qed.

(** The file is missing in [node.js]. *)
Lemma auto_load_errors_throw_from_read_witness :
  get (offline_host false) NodeCjs init "olmmachine_new"
  = (emit EvReadFileSync init,
     Throw (mkError "Error" "ENOENT: no such file or directory")).
Proof.
  destruct (auto_load_errors_throw_from_read (offline_host false) NodeCjs init
              "olmmachine_new" (mkError "Error" "ENOENT: no such file or directory")
              eq_refl eq_refl eq_refl) as [Hread _].
  exact (Hread eq_refl).
Defined.

(** ** Property reads that succeed *)

(** X12: in the Node entry points, on a host that answers every request,
    a property read succeeds in every state of the loader: whether no call
    of [initAsync] was made, some are in flight, or [wasm] is already bound,
    the read evaluates to an export of the instance [wasm] is bound to
    afterwards. *)
Theorem node_read_always_succeeds
  (H : Host) (v : variant) (s : state) (prop : string) :
  is_node v = true ->
  all_succeed H ->
  exists i,
    snd (get H v s prop) = Normal (ExportMember i prop)
    /\ wasm (fst (get H v s prop)) = InstanceExports i.
Proof.
  intros Hv [_ _ _ _ Hrs Hnm Hni Hst]. unfold get.
  destruct (wasm s) as [|i] eqn:Hw; [|exists i; split; [reflexivity | exact Hw]].
  rewrite Hv. unfold loadModuleSync.
  destruct (mod_ s) as [m|] eqn:Hm.
  - unfold initInstance. rewrite Hm, Hni, Hst. eexists. split; reflexivity.
  - destruct (Hrs (count is_read_file_sync (log s))) as [b ->].
    rewrite Hnm. unfold initInstance. cbn [mod_ set_mod]. rewrite Hni, Hst.
    eexists. split; reflexivity.
Qed.

(** A read made while a call of [initAsync] awaits its [readFile]. *)
Lemma node_read_always_succeeds_witness :
  let s := vars (run (good_host false) NodeCjs boot [CallInitAsync]) in
  exists i,
    snd (get (good_host false) NodeCjs s "olmmachine_new")
    = Normal (ExportMember i "olmmachine_new")
    /\ wasm (fst (get (good_host false) NodeCjs s "olmmachine_new")) = InstanceExports i.
Proof.
  apply (node_read_always_succeeds (good_host false) NodeCjs
           (vars (run (good_host false) NodeCjs boot [CallInitAsync]))
           "olmmachine_new" eq_refl (good_host_succeeds false)).
Defined.

Section ResolvedLinked.

Variable H : Host.
Variable v : variant.

Lemma resume_resolved_le s p :
  count is_linked (log s) + b2n (is_resolved (snd (resume H v s p)))
  <= count is_linked (log (fst (resume H v s p))) + b2n (is_resolved p).
Proof.
  destruct p as [k n|n|r|k b|n|[loaded|e]|[[]|e]]; cbn [resume];
    unfold loadModule_finish, initInstance;
    repeat case_match; simplify_eq; simpl; lia.
Qed.

Lemma get_linked_le s prop :
  count is_linked (log s) <= count is_linked (log (fst (get H v s prop))).
Proof.
  unfold get, loadModuleSync, initInstance.
  repeat case_match; simplify_eq; simpl; lia.
Qed.

(** On any host, the calls that resolved are at most as many as the
    instances that linked. *)
Lemma resolved_le_linked sched :
  resolved (tasks (run H v boot sched))
  <= count is_linked (log (vars (run H v boot sched))).
Proof.
  apply (run_invariant H v
    (fun P => resolved (tasks P) <= count is_linked (log (vars P))));
    [|unfold resolved; simpl; lia].
  intros P a HP. unfold resolved in *. destruct a as [|t|prop]; cbn [step].
  - unfold loadModule_call.
    destruct (mod_ (vars P)); [|destruct (is_node v); [|destruct (has_compileStreaming H)]];
      cbn [vars tasks]; rewrite filter_length_snoc; simpl; lia.
  - destruct (tasks P !! t) as [p|] eqn:Hp; [|exact HP].
    pose proof (resume_resolved_le (vars P) p) as Hr.
    pose proof (filter_length_insert is_resolved _ _ _ (snd (resume H v (vars P) p)) Hp) as Hf.
    destruct (resume H v (vars P) p) as [s1 p']. cbn [fst snd vars tasks] in *.
    unfold b2n in *. lia.
  - pose proof (get_linked_le (vars P) prop). cbn [vars tasks]. lia.
Qed.

Lemma resolved_pos (l : list pc) (t : nat) :
  l !! t = Some (Done (Normal tt)) -> 0 < resolved l.
Proof.
  unfold resolved. revert t. induction l as [|p l IH]; intros [|t] Hl; simpl in *;
    try discriminate.
  - injection Hl as ->. simpl. lia.
  - specialize (IH t Hl). destruct (is_resolved p); simpl; lia.
Qed.

(** Once an instance has linked, [wasm] is bound to an instance in every
    continuation of the run. *)
Lemma linked_stays_bound sched sched' :
  0 < count is_linked (log (vars (run H v boot sched))) ->
  exists j, wasm (vars (run H v boot (sched ++ sched'))) = InstanceExports j.
Proof.
  intros Hpos.
  destruct (reachable_log_inv H v (sched ++ sched')) as [Hwf' Hb'].
  destruct (run_known H v sched boot (modules_inv_boot v)) as [Hinv _].
  destruct (run_known H v sched' _ Hinv) as [_ (_ & [newer Hl] & _)].
  rewrite <- run_app in Hl.
  destruct (wasm (vars (run H v boot (sched ++ sched')))) as [|j]; [|exists j; reflexivity].
  symmetry in Hb'. apply (wf_guard_iff _ Hwf') in Hb'.
  rewrite Hl, count_app in Hb'. lia.
Qed.

End ResolvedLinked.

(** X13: once a call of [initAsync] has resolved, every property read made
    later, under any continuation of the run and on any host, succeeds and
    leaves the loader as it is: it is served by the instance [wasm] is bound
    to, never by the [Proxy]. *)
Theorem reads_succeed_after_resolved_call
  (H : Host) (v : variant) (sched sched' : list action) (t : nat) (prop : string) :
  outcome (run H v boot sched) t = Some (Normal tt) ->
  exists i,
    get H v (vars (run H v boot (sched ++ sched'))) prop
    = (vars (run H v boot (sched ++ sched')), Normal (ExportMember i prop)).
Proof.
  unfold outcome. intros Ho.
  destruct (tasks (run H v boot sched) !! t) as [p|] eqn:Hp; [|discriminate].
  destruct p as [| | | | | |r]; try discriminate. injection Ho as ->.
  pose proof (resolved_pos _ _ Hp) as Hr.
  pose proof (resolved_le_linked H v sched) as Hle.
  destruct (linked_stays_bound H v sched sched') as [j Hj]; [lia|].
  exists j. apply get_bound, Hj.
Qed.

(** A call resolves in [index.js]; a second call is then made and left in
    flight. *)
Lemma reads_succeed_after_resolved_call_witness :
  exists i,
    get (good_host true) IndexCjs
      (vars (run (good_host true) IndexCjs boot
               ([CallInitAsync; Resume 0; Resume 0] ++ [CallInitAsync])))
      "olmmachine_new"
    = (vars (run (good_host true) IndexCjs boot
               ([CallInitAsync; Resume 0; Resume 0] ++ [CallInitAsync])),
       Normal (ExportMember i "olmmachine_new")).
Proof.
  apply (reads_succeed_after_resolved_call (good_host true) IndexCjs
           [CallInitAsync; Resume 0; Resume 0] [CallInitAsync] 0 "olmmachine_new").
  reflexivity.
Defined.

(** ** Requests against calls and reads *)

Section Requests.

Variable H : Host.
Variable v : variant.

Lemma loadModule_call_requests s :
  count is_load (log (fst (loadModule_call H v s))) <= S (count is_load (log s))
  /\ count is_compile (log (fst (loadModule_call H v s)))
       + b2n (awaits_bytes (snd (loadModule_call H v s)))
       + count is_load (log s)
     <= count is_compile (log s) + count is_load (log (fst (loadModule_call H v s))).
Proof. unfold loadModule_call. repeat case_match; simpl; lia. Qed.

Lemma resume_requests s p :
  count is_compile (log (fst (resume H v s p))) + b2n (awaits_bytes (snd (resume H v s p)))
  <= count is_compile (log s) + b2n (awaits_bytes p).
Proof.
  destruct p as [k n|n|r|k b|n|[loaded|e]|r]; cbn [resume];
    unfold loadModule_finish, initInstance;
    repeat case_match; simplify_eq; simpl; lia.
Qed.

Lemma get_requests s prop :
  count is_load (log (fst (get H v s prop))) <= S (count is_load (log s))
  /\ count is_load (log s) <= count is_load (log (fst (get H v s prop)))
  /\ count is_compile (log (fst (get H v s prop))) + count is_load (log s)
     <= count is_compile (log s) + count is_load (log (fst (get H v s prop))).
Proof.
  unfold get, loadModuleSync, initInstance.
  repeat case_match; simplify_eq; simpl; lia.
Qed.

Lemma step_loads P a :
  count is_load (log (vars (step H v P a)))
  <= count is_load (log (vars P)) + b2n (is_call a) + b2n (is_get a).
Proof.
  destruct a as [|t|prop]; cbn [step is_call is_get b2n].
  - destruct (loadModule_call_requests (vars P)) as [Hl _].
    destruct (loadModule_call H v (vars P)) as [s1 p]. cbn [fst vars] in *. lia.
  - destruct (tasks P !! t) as [p|]; [|lia].
    pose proof (resume_loads H v (vars P) p) as Hl.
    destruct (resume H v (vars P) p) as [s1 p']. cbn [fst vars] in *. lia.
  - destruct (get_requests (vars P) prop) as [Hl _]. cbn [vars]. lia.
Qed.

Lemma run_loads_bound sched : forall P,
  count is_load (log (vars (run H v P sched)))
  <= count is_load (log (vars P)) + calls sched + reads sched.
Proof.
  induction sched as [|a sched IH]; intros P; simpl; [unfold calls, reads; simpl; lia|].
  specialize (IH (step H v P a)). pose proof (step_loads P a) as Hs.
  unfold calls, reads in *. destruct a; simpl in *; lia.
Qed.

(** Every compile request has its own fetch or read before it. *)
Lemma compiles_le_loads sched :
  count is_compile (log (vars (run H v boot sched)))
    + awaiting_bytes (tasks (run H v boot sched))
  <= count is_load (log (vars (run H v boot sched))).
Proof.
  apply (run_invariant H v
    (fun P => count is_compile (log (vars P)) + awaiting_bytes (tasks P)
              <= count is_load (log (vars P))));
    [|unfold awaiting_bytes; simpl; lia].
  intros P a HP. unfold awaiting_bytes in *. destruct a as [|t|prop]; cbn [step].
  - destruct (loadModule_call_requests (vars P)) as [_ Hc].
    destruct (loadModule_call H v (vars P)) as [s1 p]. cbn [fst snd vars tasks] in *.
    rewrite filter_length_snoc. unfold b2n in *. lia.
  - destruct (tasks P !! t) as [p|] eqn:Hp; [|exact HP].
    pose proof (resume_requests (vars P) p) as Hr.
    pose proof (resume_loads H v (vars P) p) as Hl.
    pose proof (filter_length_insert awaits_bytes _ _ _ (snd (resume H v (vars P) p)) Hp) as Hf.
    destruct (resume H v (vars P) p) as [s1 p']. cbn [fst snd vars tasks] in *.
    unfold b2n in *. lia.
  - destruct (get_requests (vars P) prop) as (_ & _ & Hc). cbn [vars tasks]. lia.
Qed.

(** One step of the machine, taken apart into the cases of the code. *)
Ltac step_cases P a :=
  destruct a as [|?t|?prop]; cbn [step];
  [ unfold loadModule_call
  | destruct (tasks P !! t) as [[| | | | |[|]|]|]; cbn [resume];
    unfold loadModule_finish, initInstance
  | unfold get, loadModuleSync, initInstance ];
  repeat case_match; simplify_eq; cbn [vars tasks log emit set_mod wbg_set_wasm fst snd].

Lemma node_step_never_fetches P a :
  is_node v = true ->
  count is_fetch (log (vars P)) = 0 /\ count is_streaming (log (vars P)) = 0 ->
  count is_fetch (log (vars (step H v P a))) = 0
  /\ count is_streaming (log (vars (step H v P a))) = 0.
Proof. intros Hv HP. step_cases P a; simpl; try exact HP; congruence. Qed.

Lemma fetch_step_never_reads P a :
  is_node v = false ->
  count is_read_file (log (vars P)) = 0 /\ count is_blocking (log (vars P)) = 0 ->
  count is_read_file (log (vars (step H v P a))) = 0
  /\ count is_blocking (log (vars (step H v P a))) = 0.
Proof. intros Hv HP. step_cases P a; simpl; try exact HP; congruence. Qed.

Lemma async_step_never_blocks P a :
  is_get a = false ->
  count is_blocking (log (vars P)) = 0 ->
  count is_blocking (log (vars (step H v P a))) = 0.
Proof. intros Ha HP. step_cases P a; simpl; try exact HP; discriminate. Qed.

Lemma async_run_never_blocks sched : forall P,
  reads sched = 0 ->
  count is_blocking (log (vars P)) = 0 ->
  count is_blocking (log (vars (run H v P sched))) = 0.
Proof.
  unfold reads. induction sched as [|a sched IH]; intros P Hr HP; simpl; [exact HP|].
  destruct (is_get a) eqn:Ha; simpl in Hr; rewrite Ha in Hr; [discriminate|].
  apply IH; [exact Hr|]. apply async_step_never_blocks; assumption.
Qed.

End Requests.

(** X14: on any host and under any interleaving, a call of [initAsync] or
    a property read fetches or reads the binary at most once (there is no
    retry inside a call), and every compile request follows a fetch or read
    of its own: the compile requests are at most as many as the fetches and
    reads, which are at most as many as the calls and the property reads. *)
Theorem requests_bounded_by_calls_and_reads
  (H : Host) (v : variant) (sched : list action) :
  let s := vars (run H v boot sched) in
  count is_compile (log s) <= count is_load (log s)
  /\ count is_load (log s) <= calls sched + reads sched.
Proof.
  intros s. split.
  - pose proof (compiles_le_loads H v sched) as Hc. fold s in Hc. lia.
  - pose proof (run_loads_bound H v sched boot) as Hl. fold s in Hl.
    simpl in Hl. exact Hl.
Qed.

(** X15: the Node entry points never call [fetch] or
    [WebAssembly.compileStreaming]; the fetch entry points never read a
    file and never use the synchronous [readFileSync] and
    [new WebAssembly.Module]; and in every entry point the synchronous
    requests are made by property reads on the [Proxy] only, never by
    [initAsync]. *)
Theorem entry_points_keep_to_their_requests
  (H : Host) (v : variant) (sched : list action) :
  let s := vars (run H v boot sched) in
  (is_node v = true ->
     count is_fetch (log s) = 0 /\ count is_streaming (log s) = 0)
  /\ (is_node v = false ->
      count is_read_file (log s) = 0 /\ count is_blocking (log s) = 0)
  /\ (reads sched = 0 -> count is_blocking (log s) = 0).
Proof.
  intros s. split; [|split].
  - intros Hv. apply (run_invariant H v
      (fun P => count is_fetch (log (vars P)) = 0
                /\ count is_streaming (log (vars P)) = 0)); [|split; reflexivity].
    intros P a. apply node_step_never_fetches, Hv.
  - intros Hv. apply (run_invariant H v
      (fun P => count is_read_file (log (vars P)) = 0
                /\ count is_blocking (log (vars P)) = 0)); [|split; reflexivity].
    intros P a. apply fetch_step_never_reads, Hv.
  - intros Hr. apply async_run_never_blocks; [exact Hr | reflexivity].
Qed.

(** Two overlapping calls in [node.js], without property reads. *)
Lemma entry_points_keep_to_their_requests_witness :
  let s := vars (run (good_host true) NodeCjs boot
                   [CallInitAsync; CallInitAsync; Resume 0; Resume 1; Resume 0]) in
  count is_fetch (log s) = 0
  /\ count is_streaming (log s) = 0
  /\ count is_blocking (log s) = 0.
Proof.
  intros s.
  destruct (entry_points_keep_to_their_requests (good_host true) NodeCjs
              [CallInitAsync; CallInitAsync; Resume 0; Resume 1; Resume 0])
    as (Hnode & _ & Hasync).
  destruct (Hnode eq_refl) as [Hf Hs].
  split; [exact Hf|]. split; [exact Hs|]. exact (Hasync eq_refl).
Defined.
